(** * Speech_Language_Processing / FundamentalAlgorithms

    A shallow embedding of the tokenizer demo ([nltktokenization.py]), the
    ELIZA responder ([patternmatching.py]) and the generic regex helper
    ([regularexpressions1.py]), with the properties their specification
    states about them.

    Python [str] values are lists of characters.  A character is a code
    point in U+0000..U+00FF, carried by [ascii]; the character tables below
    ([isspace], [lower], [\w], [\d]) are CPython's tables on that range. *)

From Stdlib Require Import String Ascii.
From stdpp Require Import gmap strings list.

Abbreviation str := (list ascii).

(** String literals are read as [str]. *)
Coercion list_ascii_of_string : string >-> list.

Local Open Scope string_scope.
Local Open Scope list_scope.

(** ** Characters *)

Module Char.

Definition code (c : ascii) : nat := nat_of_ascii c.

Definition between (lo hi : nat) (c : ascii) : bool :=
  ((lo <=? code c) && (code c <=? hi))%nat.

Definition same (a c : ascii) : bool := Ascii.eqb a c.

Definition LF : ascii := "010"%char.
Definition SPACE : ascii := " "%char.

(** [str.isspace] on one character: TAB..CR, FS..US, SPACE, NEL, NBSP. *)
Definition whitespace (c : ascii) : bool :=
  between 9 13 c || between 28 32 c
  || (code c =? 133)%nat || (code c =? 160)%nat.

(** Upper-case letters with a lower-case partner 32 code points above:
    A..Z and the Latin-1 capitals U+00C0..U+00DE except the
    multiplication sign U+00D7. *)
Definition isupper (c : ascii) : bool :=
  between 65 90 c || (between 192 222 c && negb (code c =? 215)%nat).

(** [str.lower] on one character. *)
Definition tolower (c : ascii) : ascii :=
  if isupper c then ascii_of_nat (code c + 32) else c.

(** [\d] of module [re] on [str] patterns: decimal digits. *)
Definition isdigit (c : ascii) : bool := between 48 57 c.

(** [str.isalnum] on one character: letters, digits, and the Latin-1
    ordinal indicators, micro sign, superscript digits and fractions. *)
Definition isalnum (c : ascii) : bool :=
  isdigit c || between 65 90 c || between 97 122 c
  || (code c =? 170)%nat || (code c =? 178)%nat || (code c =? 179)%nat
  || (code c =? 181)%nat || (code c =? 185)%nat || (code c =? 186)%nat
  || between 188 190 c
  || between 192 214 c || between 216 246 c || between 248 255 c.

(** [\w] of module [re] on [str] patterns. *)
Definition isword (c : ascii) : bool := isalnum c || same "_"%char c.

End Char.

(** ** The [str] methods the scripts call *)

Module Str.

(** [s.lower()] *)
Definition lower (s : str) : str := map Char.tolower s.

(** [s.lstrip()], [s.rstrip()], [s.strip()] *)
Fixpoint lstrip (s : str) : str :=
  match s with
  | c :: s' => if Char.whitespace c then lstrip s' else s
  | [] => []
  end.

Definition rstrip (s : str) : str := rev (lstrip (rev s)).

Definition strip (s : str) : str := rstrip (lstrip s).

(** [s.split()] with no separator: the maximal runs of non-whitespace
    characters, left to right.  [word] is the run being scanned. *)
Fixpoint split_from (word : str) (s : str) : list str :=
  match s with
  | [] => match word with [] => [] | _ => [word] end
  | c :: s' =>
      if Char.whitespace c
      then match word with
           | [] => split_from [] s'
           | _ => word :: split_from [] s'
           end
      else split_from (word ++ [c]) s'
  end.

Definition split (s : str) : list str := split_from [] s.

(** [sep.join(words)] *)
Fixpoint join (sep : str) (words : list str) : str :=
  match words with
  | [] => []
  | [w] => w
  | w :: ws => w ++ sep ++ join sep ws
  end.

(** [s.isspace()]: at least one character, and only whitespace. *)
Definition isspace (s : str) : bool :=
  negb (length s =? 0)%nat && forallb Char.whitespace s.

(** *** What [split] is meant to return

    [blank s]: only whitespace.  [word w]: non-empty, no whitespace.
    [runs s words]: [words] are the maximal whitespace-free runs of [s],
    left to right: [s] is whitespace, then a word, then either nothing
    or whitespace followed by the remaining runs. *)
Definition blank (s : str) : Prop :=
  Forall (fun c => Char.whitespace c = true) s.

Definition word (w : str) : Prop :=
  w <> [] /\ Forall (fun c => Char.whitespace c = false) w.

Definition starts_blank (s : str) : Prop :=
  match s with
  | [] => True
  | c :: _ => Char.whitespace c = true
  end.

Inductive runs : str -> list str -> Prop :=
| runs_blank s :
    blank s -> runs s []
| runs_word sp w rest words :
    blank sp -> word w -> starts_blank rest -> runs rest words ->
    runs (sp ++ w ++ rest) (w :: words).

End Str.

(** ** Module [re]: compiled patterns and the backtracking matcher *)

Module Re.

(** A compiled pattern.  [Chr p] consumes one character accepted by [p]
    (a literal, a class, an escape such as [\w], or the dot); [Star] is the
    greedy [*]; [Group n] is the [n]-th capturing parenthesis. *)
Inductive regex : Type :=
| Eps
| Chr (p : ascii -> bool)
| Seq (r1 r2 : regex)
| Alt (r1 r2 : regex)
| Star (r : regex)
| Group (n : nat) (r : regex).

(** [r+] and [r?], both greedy. *)
Definition Plus (r : regex) : regex := Seq r (Star r).
Definition Opt (r : regex) : regex := Alt r Eps.

(** A run of literal characters, each compiled by [lit]. *)
Definition Lits (lit : ascii -> regex) (s : str) : regex :=
  foldr (fun c r => Seq (lit c) r) Eps s.

(** A literal without flags, and under [re.IGNORECASE]: the subject
    character is lower-cased and compared with the lower-cased literal. *)
Definition lit (a : ascii) : regex := Chr (Char.same a).
Definition lit_ignorecase (a : ascii) : regex :=
  Chr (fun c => Char.same (Char.tolower a) (Char.tolower c)).

(** The dot without [re.DOTALL]: anything but a line feed. *)
Definition dot : regex := Chr (fun c => negb (Char.same Char.LF c)).

(** Number of capturing groups of a pattern ([Pattern.groups]). *)
Fixpoint ngroups (r : regex) : nat :=
  match r with
  | Eps | Chr _ => 0
  | Seq r1 r2 | Alt r1 r2 => ngroups r1 `max` ngroups r2
  | Star r' => ngroups r'
  | Group n r' => n `max` ngroups r'
  end.

(** Text captured so far, by group number. *)
Abbreviation captures := (gmap nat str).

Section Matcher.
Context {A : Type}.

(** A continuation receives the unread suffix of the subject and the
    captures; [None] asks the matcher to backtrack. *)
Definition cont : Type := str -> captures -> option A.

(** The greedy loop of [r*]: run the body once more if it can consume
    something and the rest then succeeds, else leave the loop here.
    [fuel] bounds the number of iterations by the length of the
    subject, which no run of consuming iterations can exceed. *)
Fixpoint star_loop (body : str -> captures -> cont -> option A)
    (fuel : nat) (s : str) (g : captures) (k : cont) : option A :=
  match fuel with
  | 0 => k s g
  | S fuel' =>
      match body s g (fun s' g' =>
               if (length s' <? length s)%nat
               then star_loop body fuel' s' g' k else None) with
      | Some a => Some a
      | None => k s g
      end
  end.

Fixpoint rmatch (r : regex) (s : str) (g : captures) (k : cont) : option A :=
  match r with
  | Eps => k s g
  | Chr p =>
      match s with
      | c :: s' => if p c then k s' g else None
      | [] => None
      end
  | Seq r1 r2 => rmatch r1 s g (fun s' g' => rmatch r2 s' g' k)
  | Alt r1 r2 =>
      match rmatch r1 s g k with
      | Some a => Some a
      | None => rmatch r2 s g k
      end
  | Star r' => star_loop (rmatch r') (length s) s g k
  | Group n r' =>
      rmatch r' s g (fun s' g' =>
        k s' (<[n := take (length s - length s') s]> g'))
  end.
End Matcher.

(** [Pattern.fullmatch(s)]: the captures of the first way, in backtracking
    order, to match all of [s]; [None] when there is none. *)
Definition at_end : @cont captures :=
  fun s' g => match s' with [] => Some g | _ => None end.

Definition fullmatch (r : regex) (s : str) : option captures :=
  rmatch r s ∅ at_end.

(** [Match.group(n)] for [n >= 1]: [None] when the group took no part. *)
Definition group (n : nat) (m : captures) : option str := m !! n.

(** One match attempt at the head of [s].  With [must_advance] an empty
    match is refused, as after a previous empty match of [findall]. *)
Definition match_here (r : regex) (must_advance : bool) (s : str)
    : option (str * captures) :=
  rmatch r s ∅ (fun s' g =>
    if must_advance && (length s' =? length s)%nat then None else Some (s', g)).

(** [Pattern.search]: the first position, scanning right, at which the
    pattern matches.  Returns the matched text, the unread suffix and the
    captures.  Only the first position is subject to [must_advance]. *)
Fixpoint search (r : regex) (must_advance : bool) (s : str)
    : option (str * str * captures) :=
  match match_here r must_advance s with
  | Some (s', g) => Some (take (length s - length s') s, s', g)
  | None =>
      match s with
      | [] => None
      | _ :: rest => search r false rest
      end
  end.

(** An element of the list [findall] returns: a string when the pattern
    has at most one group, a tuple of strings when it has several. *)
Inductive item : Type :=
| Text (s : str)
| Tuple (t : list str).

(** What [findall] reports for one match: the whole match without groups,
    the group with one, the tuple of groups with more; a group that took
    no part reads as the empty string. *)
Definition item_of (r : regex) (whole : str) (g : captures) : item :=
  match ngroups r with
  | 0 => Text whole
  | 1 => Text (default [] (g !! 1))
  | n => Tuple (map (fun i => default [] (g !! i)) (seq 1 n))
  end.

(** The loop shared by [Pattern.findall] and [Pattern.finditer]:
    successive non-overlapping matches, left to right, each with its
    text and captures.  After an empty match the scan resumes at the same
    position and must advance.  [fuel] bounds the number of matches. *)
Fixpoint scan_from (fuel : nat) (r : regex) (must_advance : bool) (s : str)
    : list (str * captures) :=
  match fuel with
  | 0 => []
  | S fuel' =>
      match search r must_advance s with
      | None => []
      | Some (whole, s', g) =>
          (whole, g) :: scan_from fuel' r (length whole =? 0)%nat s'
      end
  end.

(** A subject of [n] characters yields at most [2 * n + 1] matches. *)
Definition scan (r : regex) (s : str) : list (str * captures) :=
  scan_from (2 * length s + 2) r false s.

(** [Pattern.findall(s)] *)
Definition findall (r : regex) (s : str) : list item :=
  map (fun m : str * captures => item_of r m.1 m.2) (scan r s).

(** How far the scan still has to go: twice the characters left, plus
    one while an empty match is still allowed here. *)
Definition scan_measure (must_advance : bool) (s : str) : nat :=
  2 * length s + (if must_advance then 0 else 1).

(** *** What a successful run of the matcher looks like

    [matches r s g s' g']: pattern [r], started on subject [s] with
    captures [g], can stop with [s'] unread and captures [g']. *)
Inductive matches : regex -> str -> captures -> str -> captures -> Prop :=
| matches_eps s g :
    matches Eps s g s g
| matches_chr p c s g :
    p c = true ->
    matches (Chr p) (c :: s) g s g
| matches_seq r1 r2 s g s1 g1 s2 g2 :
    matches r1 s g s1 g1 -> matches r2 s1 g1 s2 g2 ->
    matches (Seq r1 r2) s g s2 g2
| matches_alt_l r1 r2 s g s' g' :
    matches r1 s g s' g' ->
    matches (Alt r1 r2) s g s' g'
| matches_alt_r r1 r2 s g s' g' :
    matches r2 s g s' g' ->
    matches (Alt r1 r2) s g s' g'
| matches_star_stop r s g :
    matches (Star r) s g s g
| matches_star_more r s g s1 g1 s2 g2 :
    matches r s g s1 g1 -> length s1 < length s ->
    matches (Star r) s1 g1 s2 g2 ->
    matches (Star r) s g s2 g2
| matches_group n r s g s' g' :
    matches r s g s' g' ->
    matches (Group n r) s g s' (<[n := take (length s - length s') s]> g').

(** No character test of [r] accepts [c]. *)
Fixpoint rejects (c : ascii) (r : regex) : bool :=
  match r with
  | Eps => true
  | Chr p => negb (p c)
  | Seq r1 r2 | Alt r1 r2 => rejects c r1 && rejects c r2
  | Star r' | Group _ r' => rejects c r'
  end.

(** Every successful run of [r] goes through group [n]. *)
Fixpoint binds (n : nat) (r : regex) : bool :=
  match r with
  | Eps | Chr _ | Star _ => false
  | Seq r1 r2 => binds n r1 || binds n r2
  | Alt r1 r2 => binds n r1 && binds n r2
  | Group m r' => (n =? m)%nat || binds n r'
  end.

End Re.

(** ** Exceptions and results *)

(** [re.error], raised by [re.compile] on a pattern it cannot parse. *)
Record re_error : Type := ReError { re_msg : str }.

(** [ValueError(msg)], optionally chained [from] a caught [re.error]. *)
Inductive exn : Type :=
| ValueError (msg : str) (cause : option re_error)
| AttributeError (msg : str).

Inductive result (A : Type) : Type :=
| Return (a : A)
| Raise (e : exn).
Arguments Return {A} a.
Arguments Raise {A} e.

Definition bind {A B : Type} (x : result A) (f : A -> result B) : result B :=
  match x with
  | Return a => f a
  | Raise e => Raise e
  end.

Notation "x <- e1 ;; e2" := (bind e1 (fun x => e2))
  (at level 100, e1 at next level, right associativity).

(** ** patternmatching.py: the ELIZA responder *)

Module Eliza.
Import Re.

Definition reflections : gmap str str :=
  list_to_map
    [ ("am" : str, "are" : str); ("was" : str, "were" : str);
      ("i" : str, "you" : str); ("i'd" : str, "you would" : str);
      ("i'll" : str, "you will" : str); ("i've" : str, "you have" : str);
      ("i'm" : str, "you are" : str); ("my" : str, "your" : str);
      ("are" : str, "am" : str); ("were" : str, "was" : str);
      ("you've" : str, "I have" : str); ("you'll" : str, "I will" : str);
      ("you'd" : str, "I would" : str); ("your" : str, "my" : str);
      ("yours" : str, "mine" : str); ("you" : str, "I" : str);
      ("me" : str, "you" : str) ].

(** [reflections.get(token, token)] *)
Definition reflect_token (token : str) : str :=
  default token (reflections !! token).

Definition reflect (fragment : str) : str :=
  let tokens := Str.split (Str.lower fragment) in
  Str.join " " (map reflect_token tokens).

(** [reflect(match.group(1))]: calling [.lower()] on the [None] of a group
    that took no part raises. *)
Definition reflect_group (n : nat) (m : captures) : result str :=
  match group n m with
  | Some fragment => Return (reflect fragment)
  | None => Raise (AttributeError "'NoneType' object has no attribute 'lower'")
  end.

(** Literal text of a pattern compiled with [re.IGNORECASE]. *)
Definition text (s : str) : regex := Lits lit_ignorecase s.

(** Group 1 holding one or more, or zero or more, characters matched by
    the dot; and the optional question mark. *)
Definition some_text : regex := Group 1 (Plus dot).
Definition any_text : regex := Group 1 (Star dot).
Definition opt_qmark : regex := Opt (lit_ignorecase "?"%char).

Definition rule : Type := regex * (captures -> result str).

Definition patterns : list rule :=
  [ (Seq (text "I need ") some_text,
     fun m => x <- reflect_group 1 m;; Return ("Why do you need " ++ x ++ "?"));
    (Seq (text "Why don't you ") (Seq some_text opt_qmark),
     fun m => x <- reflect_group 1 m;;
              Return ("Do you really think I don't " ++ x ++ "?"));
    (Seq (text "Why can't I ") (Seq some_text opt_qmark),
     fun m => x <- reflect_group 1 m;;
              Return ("Maybe you could " ++ x ++ " if you tried."));
    (Seq (text "I can't ") some_text,
     fun m => x <- reflect_group 1 m;;
              Return ("What makes you think you can't " ++ x ++ "?"));
    (Seq (text "I am ") some_text,
     fun m => x <- reflect_group 1 m;;
              Return ("How long have you been " ++ x ++ "?"));
    (Seq (text "I'm ") some_text,
     fun m => x <- reflect_group 1 m;; Return ("Why are you " ++ x ++ "?"));
    (Seq (text "I feel ") some_text,
     fun m => x <- reflect_group 1 m;;
              Return ("Tell me more about feeling " ++ x ++ "."));
    (any_text,
     fun _ => Return ("Please tell me more." : str)) ].

Definition fallback : str := "I'm not sure I understand. Can you elaborate?".

(** The [for] loop of [get_eliza_response] over the rules still to try. *)
Fixpoint respond_with (rules : list rule) (user_input : str) : result str :=
  match rules with
  | (pattern, response_function) :: rest =>
      match fullmatch pattern (Str.strip user_input) with
      | Some m => response_function m
      | None => respond_with rest user_input
      end
  | [] => Return fallback
  end.

Definition get_eliza_response (user_input : str) : result str :=
  respond_with patterns user_input.

(** A rule answers when, once its pattern has matched, its response
    function returns a reply that is neither empty nor the fallback. *)
Definition answers (r : rule) : Prop :=
  forall t m, fullmatch r.1 t = Some m ->
    exists reply, r.2 m = Return reply /\ reply <> [] /\ reply <> fallback.

End Eliza.

(** ** nltktokenization.py: tokenizer, vocabulary and Heaps' law *)

Module Tokenization.
Import Re.

Global Instance item_eq_dec : EqDecision item.
Proof. solve_decision. Defined.

Global Instance item_countable : Countable item :=
  inj_countable'
    (fun i => match i with Text s => inl s | Tuple t => inr t end)
    (fun x => match x with inl s => Text s | inr t => Tuple t end)
    (fun i => match i with Text _ | Tuple _ => eq_refl end).

(** The character classes of the tokenizer pattern. *)
Definition capital : regex := Chr (Char.between 65 90).
Definition word_char : regex := Chr Char.isword.
Definition digit : regex := Chr Char.isdigit.

(** The last alternative, a bracket expression: the listed characters,
    the range from colon to underscore that [:-_] denotes, and the three
    characters after it in the file, of which only U+00E2 lies in the
    modelled range (the others are U+20AC and U+02DC). *)
Definition punctuation : regex :=
  Chr (fun c =>
    existsb (Char.same c)
      [ "]"; "["; "."; ","; ";"; "034"; "'"; "?"; "("; ")" ]%char
    || Char.between 58 95 c
    || Char.same "226"%char c).

(** The verbose pattern of [tokenize_text], alternatives in source order;
    its three parentheses are capturing groups 1, 2 and 3. *)
Definition pattern : regex :=
  Alt (Plus (Group 1 (Seq capital (lit "."%char))))
 (Alt (Seq (Plus word_char)
           (Star (Group 2 (Seq (lit "-"%char) (Plus word_char)))))
 (Alt (Seq (Opt (lit "$"%char))
      (Seq (Plus digit)
      (Seq (Opt (Group 3 (Seq (lit "."%char) (Plus digit))))
           (Opt (lit "%"%char)))))
 (Alt (Seq (lit "."%char) (Seq (lit "."%char) (lit "."%char)))
      punctuation))).

(** [nltk.tokenize.regexp_tokenize(text, pattern)] with its default
    [gaps=False], as NLTK has it since release 3.1: a [RegexpTokenizer]
    compiles the pattern as given (flags UNICODE, MULTILINE, DOTALL, which
    this pattern does not observe) and returns [findall] of it on the
    text. *)
Definition regexp_tokenize (text : str) (pattern : regex) : list item :=
  findall pattern text.

Definition tokenize_text (text : str) : list item :=
  let tokens := regexp_tokenize text pattern in
  tokens.

Definition compute_vocabulary (tokens : list item) : nat * gset item :=
  let vocabulary_set : gset item := list_to_set tokens in
  (size vocabulary_set, vocabulary_set).

(** Python floats are kept as the expression that computes them: the
    value of a power or a product of floats is whatever the platform's
    arithmetic returns, which this development does not interpret. *)
Inductive pyfloat : Type :=
| FloatLiteral (decimal : str)
| FloatOfInt (n : nat)
| FloatPow (x y : pyfloat)
| FloatMul (x y : pyfloat).

Definition heaps_law_estimation (num_tokens : nat) (beta k : pyfloat)
    : pyfloat :=
  let estimated_vocab_size :=
    FloatMul k (FloatPow (FloatOfInt num_tokens) beta) in
  estimated_vocab_size.

Definition default_beta : pyfloat := FloatLiteral "0.7".
Definition default_k : pyfloat := FloatLiteral "10.0".

(** What the pipeline prints, one constructor per [print] call. *)
Inductive printed : Type :=
| NumberOfTokens (n : nat)
| VocabularySize (n : nat)
| VocabularySet (v : gset item)
| EstimatedVocabularySize (f : pyfloat).

(** [text_analysis_pipeline]: the lines printed, and how the call ends. *)
Definition text_analysis_pipeline (text : str) : list printed * result unit :=
  match text with
  | [] => ([], Raise (ValueError "Text input cannot be empty." None))
  | _ =>
      let tokens := tokenize_text text in
      let num_tokens := length tokens in
      let '(vocab_size, vocabulary) := compute_vocabulary tokens in
      let estimated_vocab_size :=
        heaps_law_estimation num_tokens default_beta default_k in
      ([ NumberOfTokens num_tokens;
         VocabularySize vocab_size;
         VocabularySet vocabulary;
         EstimatedVocabularySize estimated_vocab_size ],
       Return tt)
  end.

End Tokenization.

(** ** regularexpressions1.py: the generic helper *)

Module Helper.

(** What [find_all_matches] uses of module [re]: [re.compile], which
    either returns a compiled pattern or raises [re.error], and the
    [findall] method of compiled patterns.  The helper accepts any
    pattern string, so the parser of [re] is an interface here. *)
Class ReModule : Type := {
  Pattern : Type;
  compile : str -> re_error + Pattern;
  findall : Pattern -> str -> list Re.item;
}.

Definition find_all_matches `{ReModule} (pattern text : str)
    : result (list Re.item) :=
  match compile pattern with
  | inr compiled_pattern =>
      let matches := findall compiled_pattern text in
      Return matches
  | inl regex_error =>
      Raise (ValueError ("Invalid regex pattern: " ++ pattern)
               (Some regex_error))
  end.


End Helper.

(** ** patternmatching.py: substitutions *)

Module Subst.
Import Re.

(** A replacement template of [re.sub], parsed: literal text and group
    references such as [\1]. *)
Inductive piece : Type :=
| Literal (s : str)
| GroupRef (n : nat).

(** [Match.expand(template)]: a group that took no part expands to the
    empty string. *)
Definition expand (template : list piece) (g : captures) : str :=
  concat (map (fun p => match p with
                        | Literal s => s
                        | GroupRef n => default [] (g !! n)
                        end) template).

(** The loop of [Pattern.sub]: the same scan as [findall]; the text
    skipped before each match is kept, the match is replaced by the
    expanded template, and the text after the last match is kept. *)
Fixpoint sub_from (fuel : nat) (r : regex) (template : list piece)
    (must_advance : bool) (s : str) : str :=
  match fuel with
  | 0 => s
  | S fuel' =>
      match search r must_advance s with
      | None => s
      | Some (whole, s', g) =>
          take (length s - length whole - length s') s
            ++ expand template g
            ++ sub_from fuel' r template (length whole =? 0)%nat s'
      end
  end.

(** [re.sub(pattern, template, s)] *)
Definition sub (r : regex) (template : list piece) (s : str) : str :=
  sub_from (2 * length s + 2) r template false s.

(** [re.sub(r'colour', 'color', text)] *)
Definition convert_colour_to_color (text : str) : str :=
  sub (Lits lit "colour") [Literal "color"] text.

(** [re.sub(r'(\d+)', r'<\1>', text)] *)
Definition add_angle_brackets_around_numbers (text : str) : str :=
  sub (Group 1 (Plus (Chr Char.isdigit)))
      [Literal "<"; GroupRef 1; Literal ">"] text.

End Subst.

(** ** patternmatching.py: the interactive loop *)

Module Chatbot.
Import Eliza.










End Chatbot.

(** ** regularexpressions1.py: demonstrations built on the helper *)

Module Demos.
Import Re Helper.

Section WithRe.
Context `{ReModule}.

Definition demonstrate_disjunction (text : str) : result (list item) :=
  let pattern : str := "cat|dog" in
  find_all_matches pattern text.

Definition demonstrate_aliases (text : str) : result (list item) :=
  let pattern : str := "\d+" in
  find_all_matches pattern text.

Definition demonstrate_complex_disjunction (text : str)
    : result (list item) :=
  let pattern : str := "(cat|dog)s?" in
  find_all_matches pattern text.

End WithRe.

(** The interface does on [pattern] what module [re] does: it compiles
    it, and [findall] of the result is [findall] of [r]. *)
Definition compiles_to `{ReModule} (pattern : str) (r : regex) : Prop :=
  exists p, compile pattern = inr p
            /\ forall text, findall p text = Re.findall r text.

(** The three patterns as module [re] compiles them. *)
Definition cat_or_dog : regex := Alt (Lits lit "cat") (Lits lit "dog").
Definition digits : regex := Plus (Chr Char.isdigit).
Definition cats_or_dogs : regex :=
  Seq (Group 1 cat_or_dog) (Opt (lit "s"%char)).

(** An implementation of the interface that knows these three patterns
    and no other. *)
Definition known_patterns : ReModule :=
  {| Pattern := regex;
     compile pattern :=
       if decide (pattern = ("cat|dog" : str)) then inr cat_or_dog
       else if decide (pattern = ("\d+" : str)) then inr digits
       else if decide (pattern = ("(cat|dog)s?" : str)) then inr cats_or_dogs
       else inl (ReError "pattern not known");
     findall := Re.findall |}.

End Demos.

(** ** regularexpressions.py: aliases and wildcards *)

Module Aliases.
Import Re.

(** [\d+], [\w+] and [\s+] as module [re] compiles them. *)
Definition digit_pattern : regex := Plus (Chr Char.isdigit).
Definition word_pattern : regex := Plus (Chr Char.isword).
Definition space_pattern : regex := Plus (Chr Char.whitespace).

(** The function returns a dict with three keys. *)
Definition convenient_aliases_examples (text : str) : gmap str (list item) :=
  let digits := findall digit_pattern text in
  let words := findall word_pattern text in
  let spaces := findall space_pattern text in
  <[ ("digits" : str) := digits ]>
    (<[ ("words" : str) := words ]>
       (<[ ("spaces" : str) := spaces ]> ∅)).

(** [a[n]?\w*]: the letter a, an optional n, word characters. *)
Definition a_word : regex :=
  Seq (lit "a") (Seq (Opt (lit "n")) (Star (Chr Char.isword))).

(** [a\w*], to compare with. *)
Definition a_word_plain : regex :=
  Seq (lit "a") (Star (Chr Char.isword)).

Definition advanced_regex_wildcards (text : str) : list item :=
  let pattern := a_word in
  findall pattern text.

End Aliases.

(** ** Shapes of patterns and strings, to state properties with *)

Module Shape.
Import Re.

(** Every run of [r] reads at least one character. *)
Fixpoint consumes (r : regex) : bool :=
  match r with
  | Eps | Star _ => false
  | Chr _ => true
  | Seq r1 r2 => consumes r1 || consumes r2
  | Alt r1 r2 => consumes r1 && consumes r2
  | Group _ r' => consumes r'
  end.

(** The longest prefix of [s] made of characters accepted by [p], and
    what follows it. *)
Fixpoint while (p : ascii -> bool) (s : str) : str :=
  match s with
  | c :: s' => if p c then c :: while p s' else []
  | [] => []
  end.

Fixpoint after (p : ascii -> bool) (s : str) : str :=
  match s with
  | c :: s' => if p c then after p s' else s
  | [] => []
  end.

(** The maximal runs of characters accepted by [p], left to right. [run]
    is the run being read. *)
Fixpoint chunks_from (p : ascii -> bool) (run : str) (s : str) : list str :=
  match s with
  | [] => match run with [] => [] | _ => [run] end
  | c :: s' =>
      if p c then chunks_from p (run ++ [c]) s'
      else match run with
           | [] => chunks_from p [] s'
           | _ => run :: chunks_from p [] s'
           end
  end.

Definition chunks (p : ascii -> bool) (s : str) : list str :=
  chunks_from p [] s.

(** [pat in s]: [pat] occurs in [s] as a substring. *)
Definition occurs (pat s : str) : Prop :=
  exists before behind, s = before ++ pat ++ behind.

(** The prefix-free tail used by the plural pattern: what follows an
    optional letter s. *)
Definition after_s (s : str) : str :=
  match s with
  | c :: s' => if Char.same "s" c then s' else s
  | [] => []
  end.

(** A text cut into its numbers (runs of digits) and its other
    characters. *)
Inductive part : Type :=
| Number (ds : str)
| Other (c : ascii).

Definition part_text (x : part) : str :=
  match x with Number ds => ds | Other c => [c] end.

Definition part_bracketed (x : part) : str :=
  match x with Number ds => "<" ++ ds ++ ">" | Other c => [c] end.

Definition proper_part (x : part) : Prop :=
  match x with
  | Number ds => ds <> [] /\ Forall (fun c => Char.isdigit c = true) ds
  | Other c => Char.isdigit c = false
  end.

(** No two numbers are neighbours: every run of digits is maximal. *)
Definition separated (parts : list part) : Prop :=
  forall before ds1 ds2 behind,
    parts <> before ++ Number ds1 :: Number ds2 :: behind.

(** Pattern [r] cannot tell a character [c] from [f c]. *)
Fixpoint respects (f : ascii -> ascii) (r : regex) : Prop :=
  match r with
  | Eps => True
  | Chr p => forall c, p (f c) = p c
  | Seq r1 r2 | Alt r1 r2 => respects f r1 /\ respects f r2
  | Star r' | Group _ r' => respects f r'
  end.

(** Every run of [r] reads the character [c]. *)
Fixpoint needs (c : ascii) (r : regex) : Prop :=
  match r with
  | Eps | Star _ => False
  | Chr p => forall c', p c' = true -> c' = c
  | Seq r1 r2 => needs c r1 \/ needs c r2
  | Alt r1 r2 => needs c r1 /\ needs c r2
  | Group _ r' => needs c r'
  end.

(** Whatever group [n] of [r] captures holds the character [c]. *)
Fixpoint group_needs (c : ascii) (n : nat) (r : regex) : Prop :=
  match r with
  | Eps | Chr _ => True
  | Seq r1 r2 | Alt r1 r2 => group_needs c n r1 /\ group_needs c n r2
  | Star r' => group_needs c n r'
  | Group m r' => (m = n -> needs c r') /\ group_needs c n r'
  end.

End Shape.

(** ** Inputs used below *)

(** The sample sentence of the tokenizer script. *)
Definition example_text : str := "That U.S.A. poster-print costs $12.40...".

(** Two lines of text: a line feed in the middle survives [strip]. *)
Definition two_lines : str := "one" ++ [Char.LF] ++ "two".

(** * Properties *)

(** ** Worked examples *)

Example strip_demo : Str.strip "  I need help " = "I need help".
Proof. reflexivity. Qed.

Example split_demo :
  Str.split " i  am happy " = [ "i" : str; "am" : str; "happy" : str ].
Proof. reflexivity. Qed.

Example reflect_demo : Eliza.reflect "I AM  here" = "you are here".
Proof. vm_compute. reflexivity. Qed.

Example eliza_demo :
  Eliza.get_eliza_response "  why don't you love me?? "
  = Return ("Do you really think I don't love me???" : str).
Proof. vm_compute. reflexivity. Qed.

Example reflect_values_verbatim :
  Eliza.reflect "You've  seen MY dog" = "I have seen your dog".
Proof. vm_compute. reflexivity. Qed.

(** ** Characters *)

Module CharFacts.

Ltac by_cases c :=
  destruct c as [[] [] [] [] [] [] [] []]; vm_compute; try reflexivity;
  try discriminate.

(** Lower-casing moves a capital letter 32 code points up, and a
    lower-cased character is left alone by a second pass. *)
Lemma tolower_capital c :
  Char.between 65 90 c = true ->
  Char.code (Char.tolower c) = Char.code c + 32.
Proof. by_cases c. Qed.

Lemma tolower_idempotent c : Char.tolower (Char.tolower c) = Char.tolower c.
Proof. by_cases c. Qed.

(** Whitespace has no case, and no capital is whitespace. *)
Lemma tolower_whitespace c :
  Char.whitespace (Char.tolower c) = Char.whitespace c.
Proof. by_cases c. Qed.

End CharFacts.

(** ** The matcher *)

Module ReFacts.
Import Re.

Section Soundness.
Context {A : Type}.
Implicit Types (k : @cont A) (a : A).

Lemma star_loop_sound body r :
  (forall s g k a, body s g k = Some a ->
     exists s' g', matches r s g s' g' /\ k s' g' = Some a) ->
  forall fuel s g k a,
    star_loop body fuel s g k = Some a ->
    exists s' g', matches (Star r) s g s' g' /\ k s' g' = Some a.
Proof.
  intros Hbody fuel. induction fuel as [|fuel IH]; intros s g k a; simpl.
  - intros Hk. exists s, g. split; [constructor | exact Hk].
  - destruct (body s g _) as [a'|] eqn:Hrun.
    + intros [= ->]. apply Hbody in Hrun as (s1 & g1 & Hm & Hk).
      destruct (length s1 <? length s)%nat eqn:Hlt; [|discriminate].
      apply Nat.ltb_lt in Hlt.
      apply IH in Hk as (s2 & g2 & Hm2 & Hk2).
      exists s2, g2. split; [|exact Hk2].
      eapply matches_star_more; eauto.
    + intros Hk. exists s, g. split; [constructor | exact Hk].
Qed.

(** Whatever [rmatch] returns was returned by its continuation at the
    end of a run that [matches] describes. *)
Lemma rmatch_sound r :
  forall s g k a, rmatch r s g k = Some a ->
    exists s' g', matches r s g s' g' /\ k s' g' = Some a.
Proof.
  induction r as [|p|r1 IH1 r2 IH2|r1 IH1 r2 IH2|r IH|n r IH];
    intros s g k a; simpl.
  - intros Hk. exists s, g. split; [constructor | exact Hk].
  - destruct s as [|c s]; [discriminate|].
    destruct (p c) eqn:Hp; [|discriminate].
    intros Hk. exists s, g. split; [by constructor | exact Hk].
  - intros H. apply IH1 in H as (s1 & g1 & Hm1 & H).
    apply IH2 in H as (s2 & g2 & Hm2 & H).
    exists s2, g2. split; [econstructor; eauto | exact H].
  - destruct (rmatch r1 s g k) as [a'|] eqn:H1.
    + intros [= ->]. apply IH1 in H1 as (s' & g' & Hm & H).
      exists s', g'. split; [by apply matches_alt_l | exact H].
    + intros H. apply IH2 in H as (s' & g' & Hm & H).
      exists s', g'. split; [by apply matches_alt_r | exact H].
  - apply star_loop_sound. exact IH.
  - intros H. apply IH in H as (s' & g' & Hm & H).
    eexists _, _. split; [apply matches_group; exact Hm | exact H].
Qed.
End Soundness.

(** A run consumes a prefix of the subject, and a pattern that rejects
    [c] never consumes [c]. *)
Lemma matches_consumes c r s g s' g' :
  matches r s g s' g' -> rejects c r = true ->
  exists u, s = u ++ s' /\ c ∉ u.
Proof.
  induction 1 as [s g|p c' s g Hp|r1 r2 s g s1 g1 s2 g2 _ IH1 _ IH2
                 |r1 r2 s g s' g' _ IH|r1 r2 s g s' g' _ IH
                 |r s g|r s g s1 g1 s2 g2 _ IH1 _ _ IH2|n r s g s' g' _ IH];
    simpl; intros Hrej.
  - exists []. split; [done | apply not_elem_of_nil].
  - exists [c']. split; [done|].
    intros Hin. apply list_elem_of_singleton in Hin as ->.
    rewrite Hp in Hrej. discriminate.
  - apply andb_prop in Hrej as [Hr1 Hr2].
    destruct (IH1 Hr1) as (u1 & -> & Hu1), (IH2 Hr2) as (u2 & -> & Hu2).
    exists (u1 ++ u2). split; [by rewrite <- app_assoc|].
    rewrite elem_of_app. tauto.
  - apply andb_prop in Hrej as [Hr1 _]. auto.
  - apply andb_prop in Hrej as [_ Hr2]. auto.
  - exists []. split; [done | apply not_elem_of_nil].
  - destruct (IH1 Hrej) as (u1 & -> & Hu1), (IH2 Hrej) as (u2 & -> & Hu2).
    exists (u1 ++ u2). split; [by rewrite <- app_assoc|].
    rewrite elem_of_app. tauto.
  - auto.
Qed.

(** Captures are only ever added or overwritten. *)
Lemma matches_keeps n r s g s' g' :
  matches r s g s' g' -> is_Some (g !! n) -> is_Some (g' !! n).
Proof.
  induction 1; intros Hn; auto.
  rewrite lookup_insert. case_decide; [eauto | auto].
Qed.

Lemma matches_binds n r s g s' g' :
  matches r s g s' g' -> binds n r = true -> is_Some (g' !! n).
Proof.
  induction 1 as [s g|p c' s g Hp|r1 r2 s g s1 g1 s2 g2 H1 IH1 H2 IH2
                 |r1 r2 s g s' g' _ IH|r1 r2 s g s' g' _ IH
                 |r s g|r s g s1 g1 s2 g2 _ IH1 _ _ IH2|m r s g s' g' _ IH];
    simpl; intros Hb; try discriminate.
  - apply orb_prop in Hb as [Hb|Hb].
    + eapply matches_keeps; [exact H2 | auto].
    + auto.
  - apply andb_prop in Hb as [Hb _]. auto.
  - apply andb_prop in Hb as [_ Hb]. auto.
  - rewrite lookup_insert. case_decide as Hm; [eauto|].
    apply orb_prop in Hb as [Hb|Hb]; [|auto].
    apply Nat.eqb_eq in Hb. congruence.
Qed.

(** A pattern that rejects [c] cannot match the whole of a subject in
    which [c] occurs. *)
Lemma fullmatch_rejects c r s :
  rejects c r = true -> c ∈ s -> fullmatch r s = None.
Proof.
  intros Hrej Hin. destruct (fullmatch r s) as [m|] eqn:Hm; [|done].
  apply rmatch_sound in Hm as (s' & g' & Hrun & Hk).
  destruct s'; [|discriminate].
  destruct (matches_consumes c _ _ _ _ _ Hrun Hrej) as (u & -> & Hu).
  rewrite app_nil_r in Hin. contradiction.
Qed.

(** A successful [fullmatch] of a pattern that binds group [n] has a
    text for that group. *)
Lemma fullmatch_binds n r s m :
  binds n r = true -> fullmatch r s = Some m -> is_Some (group n m).
Proof.
  intros Hb Hm. apply rmatch_sound in Hm as (s' & g' & Hrun & Hk).
  destruct s'; [|discriminate]. injection Hk as <-.
  eapply matches_binds; eauto.
Qed.

(** The greedy loop over a single-character test runs to the end of a
    subject made of accepted characters, when the rest of the pattern is
    happy to start there. *)
Lemma star_loop_chr_all {A} p fuel s g (k : @cont A) a :
  length s <= fuel -> Forall (fun c => p c = true) s ->
  k [] g = Some a ->
  star_loop (rmatch (Chr p)) fuel s g k = Some a.
Proof.
  revert fuel. induction s as [|c s IH]; intros fuel Hfuel Hall Hk.
  - destruct fuel; simpl; [done | by rewrite Hk].
  - destruct fuel as [|fuel]; simpl in Hfuel; [lia|].
    apply Forall_cons in Hall as [Hc Hall].
    simpl. rewrite Hc.
    replace (length s <? S (length s))%nat with true
      by (symmetry; apply Nat.ltb_lt; lia).
    rewrite IH; [done | lia | done | done].
Qed.

(** The defining equations of the matcher, for rewriting. *)
Lemma rmatch_seq {A} r1 r2 s g (k : @cont A) :
  rmatch (Seq r1 r2) s g k = rmatch r1 s g (fun s' g' => rmatch r2 s' g' k).
Proof. reflexivity. Qed.

Lemma rmatch_group {A} n r s g (k : @cont A) :
  rmatch (Group n r) s g k
  = rmatch r s g (fun s' g' =>
      k s' (<[n := take (length s - length s') s]> g')).
Proof. reflexivity. Qed.

Lemma rmatch_star {A} r s g (k : @cont A) :
  rmatch (Star r) s g k = star_loop (rmatch r) (length s) s g k.
Proof. reflexivity. Qed.

Lemma rmatch_chr_accept {A} p c s g (k : @cont A) :
  p c = true -> rmatch (Chr p) (c :: s) g k = k s g.
Proof. intros Hp. simpl. by rewrite Hp. Qed.

Lemma rmatch_opt_at_end {A} p g (k : @cont A) :
  rmatch (Opt (Chr p)) [] g k = k [] g.
Proof. reflexivity. Qed.

(** *** The fuel of the two loops never runs out *)

Lemma matches_shorter r s g s' g' :
  matches r s g s' g' -> length s' <= length s.
Proof. induction 1; simpl; lia. Qed.

Lemma star_loop_ext {A} (body : str -> captures -> @cont A -> option A) :
  (forall s g k k', (forall s' g', k s' g' = k' s' g') ->
     body s g k = body s g k') ->
  forall fuel s g k k', (forall s' g', k s' g' = k' s' g') ->
    star_loop body fuel s g k = star_loop body fuel s g k'.
Proof.
  intros Hbody fuel. induction fuel as [|fuel IH]; intros s g k k' Hk; simpl.
  - apply Hk.
  - rewrite (Hbody s g _ (fun s' g' =>
      if (length s' <? length s)%nat
      then star_loop body fuel s' g' k' else None)).
    + by rewrite Hk.
    + intros s' g'. destruct (length s' <? length s)%nat; [by apply IH | done].
Qed.

(** The matcher only looks at what its continuation returns. *)
Lemma rmatch_ext {A} r :
  forall s g (k k' : @cont A), (forall s' g', k s' g' = k' s' g') ->
    rmatch r s g k = rmatch r s g k'.
Proof.
  induction r as [|p|r1 IH1 r2 IH2|r1 IH1 r2 IH2|r IH|n r IH];
    intros s g k k' Hk; simpl.
  - apply Hk.
  - destruct s as [|c s]; [done|]. by rewrite Hk.
  - apply IH1. intros s' g'. by apply IH2.
  - by rewrite (IH1 s g k k' Hk), (IH2 s g k k' Hk).
  - by apply star_loop_ext.
  - apply IH. intros s' g'. apply Hk.
Qed.

Lemma rmatch_none {A} r s g :
  rmatch r s g (fun _ _ => @None A) = None.
Proof.
  destruct (rmatch r s g _) as [a|] eqn:Hrun; [|done].
  by apply rmatch_sound in Hrun as (? & ? & _ & ?).
Qed.

(** Iterating [r*] needs no more rounds than the subject has characters:
    more fuel changes nothing. *)
Lemma star_loop_fuel {A} r fuel :
  forall s g (k : @cont A), length s <= fuel ->
    star_loop (rmatch r) (S fuel) s g k = star_loop (rmatch r) fuel s g k.
Proof.
  induction fuel as [|fuel IH]; intros s g k Hfuel.
  - destruct s; [|simpl in Hfuel; lia]. simpl.
    by rewrite rmatch_none.
  - change (star_loop (rmatch r) (S (S fuel)) s g k)
      with (match rmatch r s g (fun s' g' =>
                     if (length s' <? length s)%nat
                     then star_loop (rmatch r) (S fuel) s' g' k else None) with
            | Some a => Some a
            | None => k s g
            end).
    rewrite (rmatch_ext r s g _ (fun s' g' =>
               if (length s' <? length s)%nat
               then star_loop (rmatch r) fuel s' g' k else None)); [done|].
    intros s' g'. destruct (length s' <? length s)%nat eqn:Hlt; [|done].
    apply Nat.ltb_lt in Hlt. apply IH. lia.
Qed.

Lemma match_here_shorter r must_advance s s' g :
  match_here r must_advance s = Some (s', g) ->
  length s' <= length s /\ (must_advance = true -> length s' < length s).
Proof.
  unfold match_here. intros Hrun.
  apply rmatch_sound in Hrun as (s1 & g1 & Hm & Hk).
  apply matches_shorter in Hm.
  destruct must_advance; simpl in Hk.
  - destruct (length s1 =? length s)%nat eqn:Heq; [discriminate|].
    apply Nat.eqb_neq in Heq. injection Hk as <- <-. lia.
  - injection Hk as <- <-. split; [lia | discriminate].
Qed.

Lemma search_progress r s :
  forall must_advance whole s' g,
    search r must_advance s = Some (whole, s', g) ->
    scan_measure (length whole =? 0)%nat s' < scan_measure must_advance s.
Proof.
  unfold scan_measure.
  induction s as [|c s IH]; intros must_advance whole s' g; simpl.
  - destruct (match_here r must_advance []) as [[s1 g1]|] eqn:Hhere;
      [|discriminate].
    intros [= <- <- <-].
    apply match_here_shorter in Hhere as [Hle Hadv].
    destruct s1; [|simpl in Hle; lia]. simpl.
    destruct must_advance; [specialize (Hadv eq_refl); simpl in Hadv|]; lia.
  - destruct (match_here r must_advance (c :: s)) as [[s1 g1]|] eqn:Hhere.
    + intros [= <- <- <-].
      apply match_here_shorter in Hhere as [Hle Hadv]. simpl in Hle, Hadv.
      rewrite length_take. simpl.
      destruct (_ =? 0)%nat eqn:Hempty;
        [apply Nat.eqb_eq in Hempty | apply Nat.eqb_neq in Hempty];
        destruct must_advance; try specialize (Hadv eq_refl); lia.
    + intros Hrest. apply IH in Hrest.
      destruct (length whole =? 0)%nat, must_advance; simpl in *; lia.
Qed.

(** The scan of [findall] stops by itself before its fuel is spent. *)
Lemma scan_from_fuel r fuel1 :
  forall fuel2 must_advance s,
    scan_measure must_advance s < fuel1 ->
    scan_measure must_advance s < fuel2 ->
    scan_from fuel1 r must_advance s = scan_from fuel2 r must_advance s.
Proof.
  induction fuel1 as [|fuel1 IH]; intros fuel2 must_advance s H1 H2; [lia|].
  destruct fuel2 as [|fuel2]; [lia|]. simpl.
  destruct (search r must_advance s) as [[[whole s'] g]|] eqn:Hsearch; [|done].
  apply search_progress in Hsearch.
  f_equal. apply IH; lia.
Qed.

Lemma scan_fuel r s fuel :
  2 * length s + 1 < fuel -> scan_from fuel r false s = scan r s.
Proof.
  intros Hfuel. unfold scan.
  apply scan_from_fuel; unfold scan_measure; lia.
Qed.

(** *** The matcher finds a run whenever there is one *)

Lemma star_loop_fuel_ge {A} r fuel :
  forall s g (k : @cont A), length s <= fuel ->
    star_loop (rmatch r) fuel s g k = star_loop (rmatch r) (length s) s g k.
Proof.
  induction fuel as [|fuel IH]; intros s g k Hfuel.
  - by replace (length s) with 0 by lia.
  - destruct (decide (length s = S fuel)) as [->|Hne]; [done|].
    rewrite star_loop_fuel by lia. apply IH. lia.
Qed.

Lemma star_loop_stop {A} (body : str -> captures -> @cont A -> option A)
    fuel s g k :
  star_loop body fuel s g k = None -> k s g = None.
Proof.
  destruct fuel; simpl; [done|]. by destruct (body s g _).
Qed.

(** If the matcher gives up, the continuation refuses the end of every
    run: backtracking misses none. *)
Lemma rmatch_complete {A} r s g s' g' :
  matches r s g s' g' ->
  forall k : @cont A, rmatch r s g k = None -> k s' g' = None.
Proof.
  induction 1 as [s g|p c s g Hp|r1 r2 s g s1 g1 s2 g2 _ IH1 _ IH2
                 |r1 r2 s g s' g' _ IH|r1 r2 s g s' g' _ IH
                 |r s g|r s g s1 g1 s2 g2 _ IH1 Hlt _ IH2|n r s g s' g' _ IH];
    intros k; simpl.
  - done.
  - by rewrite Hp.
  - intros Hrun. apply IH2. by apply (IH1 _ Hrun).
  - destruct (rmatch r1 s g k) eqn:H1; [discriminate|]. intros _. by apply IH.
  - destruct (rmatch r1 s g k) eqn:H1; [discriminate|]. apply IH.
  - apply star_loop_stop.
  - destruct (length s) as [|fuel] eqn:Hlen; [lia|]. simpl.
    destruct (rmatch r s g _) eqn:Hbody; [discriminate|]. intros _.
    apply IH1 in Hbody. rewrite Hlen in Hbody.
    replace (length s1 <? S fuel)%nat with true in Hbody
      by (symmetry; apply Nat.ltb_lt; lia).
    apply IH2. simpl. rewrite <- Hbody. symmetry. apply star_loop_fuel_ge. lia.
  - intros Hrun. by apply (IH _ Hrun).
Qed.

(** [fullmatch] succeeds exactly when some run reads the whole subject. *)
Lemma fullmatch_iff r s :
  is_Some (fullmatch r s) <-> exists g', matches r s ∅ [] g'.
Proof.
  split.
  - intros [m Hm]. apply rmatch_sound in Hm as (s' & g' & Hrun & Hk).
    destruct s'; [eauto | discriminate].
  - intros [g' Hrun]. destruct (fullmatch r s) eqn:Hm; [eauto|].
    by apply (rmatch_complete _ _ _ _ _ Hrun) in Hm.
Qed.

End ReFacts.

(** ** The [str] methods *)

Module StrFacts.
Import Str.

Lemma lstrip_head c s : Char.whitespace c = false -> lstrip (c :: s) = c :: s.
Proof. intros Hc. simpl. by rewrite Hc. Qed.

Lemma rstrip_last s d :
  Char.whitespace d = false -> rstrip (s ++ [d]) = s ++ [d].
Proof.
  intros Hd. unfold rstrip. rewrite rev_app_distr. simpl.
  rewrite Hd. simpl. by rewrite rev_involutive.
Qed.

(** Stripping leaves alone a string that starts and ends with
    characters that are not whitespace. *)
Lemma strip_tight c s d :
  Char.whitespace c = false -> Char.whitespace d = false ->
  strip (c :: s ++ [d]) = c :: s ++ [d].
Proof.
  intros Hc Hd. unfold strip. rewrite lstrip_head by done.
  exact (rstrip_last (c :: s) d Hd).
Qed.

Lemma runs_blank_cons c s words :
  Char.whitespace c = true -> runs s words -> runs (c :: s) words.
Proof.
  intros Hc [s' Hs|sp w rest words' Hsp Hw Hrest Hruns].
  - apply runs_blank. by constructor.
  - apply (runs_word (c :: sp)); [by constructor | done..].
Qed.

Lemma split_from_runs s :
  forall w, Forall (fun c => Char.whitespace c = false) w ->
    runs (w ++ s) (split_from w s).
Proof.
  induction s as [|c s IH]; intros w Hw; simpl.
  - destruct w as [|c0 w]; [apply runs_blank; constructor|].
    rewrite app_nil_r.
    rewrite <- (app_nil_l (c0 :: w)), <- (app_nil_r (c0 :: w)) at 1.
    apply runs_word; [constructor | by split | done
                      | apply runs_blank; constructor].
  - destruct (Char.whitespace c) eqn:Hc.
    + specialize (IH [] ltac:(constructor)). simpl in IH.
      destruct w as [|c0 w]; [by apply runs_blank_cons|].
      rewrite <- (app_nil_l ((c0 :: w) ++ c :: s)).
      apply runs_word; [constructor | by split | done
                        | by apply runs_blank_cons].
    + replace (w ++ c :: s) with ((w ++ [c]) ++ s)
        by (by rewrite <- app_assoc).
      apply IH. apply Forall_app. split; [done | by repeat constructor].
Qed.

(** [split] returns the maximal whitespace-free runs, in order. *)
Lemma split_runs s : runs s (split s).
Proof. apply (split_from_runs s []). constructor. Qed.

Lemma split_from_blank sp s :
  blank sp -> split_from [] (sp ++ s) = split_from [] s.
Proof.
  induction 1 as [|c sp Hc _ IH]; simpl; [done | by rewrite Hc].
Qed.

Lemma split_from_word w :
  Forall (fun c => Char.whitespace c = false) w ->
  forall acc s, split_from acc (w ++ s) = split_from (acc ++ w) s.
Proof.
  induction 1 as [|c w Hc _ IH]; intros acc s; simpl.
  - by rewrite app_nil_r.
  - rewrite Hc, IH. by rewrite <- app_assoc.
Qed.

(** ... and nothing else is: the runs of a string are [split] of it. *)
Lemma runs_split s words : runs s words -> words = split s.
Proof.
  induction 1 as [s Hs|sp w rest words Hsp [Hne Hw] Hrest _ IH]; unfold split.
  - rewrite <- (app_nil_r s). rewrite split_from_blank by done. done.
  - rewrite split_from_blank by done.
    rewrite split_from_word by done. simpl.
    destruct w as [|c0 w]; [done|]. subst words.
    destruct rest as [|c rest]; simpl in *; [done | rewrite Hrest].
    unfold split. simpl. by rewrite Hrest.
Qed.

End StrFacts.

(** ** The ELIZA responder *)

Module ElizaFacts.
Import Re ReFacts Eliza.

Lemma reflect_group_bound pattern t m :
  binds 1 pattern = true -> fullmatch pattern t = Some m ->
  exists fragment,
    group 1 m = Some fragment /\ reflect_group 1 m = Return (reflect fragment).
Proof.
  intros Hb Hm. destruct (fullmatch_binds 1 _ _ _ Hb Hm) as [fragment Hg].
  exists fragment. split; [done|]. unfold reflect_group. by rewrite Hg.
Qed.

Ltac rule_answers :=
  let t := fresh "t" in let m := fresh "m" in let Hm := fresh "Hm" in
  let x := fresh "x" in let Hx := fresh "Hx" in
  intros t m Hm;
  eapply reflect_group_bound in Hm as (x & _ & Hx); [|reflexivity];
  simpl; try rewrite Hx; simpl;
  eexists; split; [reflexivity | split; discriminate].

Lemma patterns_answer : Forall answers patterns.
Proof. unfold patterns. repeat (constructor; [rule_answers|]). constructor. Qed.

Lemma patterns_reject_LF :
  Forall (fun r : rule => rejects Char.LF r.1 = true) patterns.
Proof. unfold patterns. repeat (constructor; [reflexivity|]). constructor. Qed.

Lemma respond_with_miss rules user_input :
  Forall (fun r : rule => fullmatch r.1 (Str.strip user_input) = None) rules ->
  respond_with rules user_input = Return fallback.
Proof.
  induction 1 as [|[pattern f] rules Hmiss _ IH]; simpl in *; [done|].
  by rewrite Hmiss.
Qed.

Lemma respond_with_total rules user_input :
  Forall answers rules ->
  exists reply, respond_with rules user_input = Return reply /\ reply <> [].
Proof.
  induction 1 as [|[pattern f] rules Hans _ IH]; simpl.
  - exists fallback. split; [done | discriminate].
  - destruct (fullmatch pattern _) as [m|] eqn:Hm; [|exact IH].
    destruct (Hans _ _ Hm) as (reply & Hreply & Hne & _). eauto.
Qed.

Lemma respond_with_hit rules user_input :
  Forall answers rules ->
  Exists (fun r : rule =>
            is_Some (fullmatch r.1 (Str.strip user_input))) rules ->
  respond_with rules user_input <> Return fallback.
Proof.
  induction 1 as [|[pattern f] rules Hans _ IH]; intros Hex; simpl.
  - by apply Exists_nil in Hex.
  - destruct (fullmatch pattern _) as [m|] eqn:Hm.
    + destruct (Hans _ _ Hm) as (reply & Hreply & _ & Hnf).
      simpl in Hreply. rewrite Hreply. congruence.
    + apply IH. apply Exists_cons in Hex as [[m Hex]|Hex]; [|done].
      simpl in Hex. congruence.
Qed.

Lemma dot_accepts t :
  Char.LF ∉ t -> Forall (fun c => negb (Char.same Char.LF c) = true) t.
Proof.
  intros Hnl. apply Forall_forall. intros c Hc.
  apply negb_true_iff, Ascii.eqb_neq. intros <-. contradiction.
Qed.

(** The catch-all pattern matches every subject without a line feed, and
    captures all of it. *)
Lemma any_text_fullmatch t :
  Char.LF ∉ t -> fullmatch any_text t = Some (<[1 := t]> ∅).
Proof.
  intros Hnl. unfold fullmatch, any_text. simpl.
  apply star_loop_chr_all; [done | by apply dot_accepts |].
  simpl. rewrite Nat.sub_0_r, take_ge; done.
Qed.

Lemma text_prefix {A} p rest g (k : @cont A) :
  rmatch (text p) (p ++ rest) g k = k rest g.
Proof.
  induction p as [|c p IH]; simpl; [done|].
  unfold Char.same. by rewrite Ascii.eqb_refl.
Qed.

(** After a literal prefix, the greedy group takes the whole rest of a
    line, a final question mark included, and leaves nothing to the
    optional question mark that follows it in the pattern. *)
Lemma greedy_group_takes_all p t :
  t <> [] -> Char.LF ∉ t ->
  fullmatch (Seq (text p) (Seq some_text opt_qmark)) (p ++ t)
    = Some (<[1 := t]> ∅).
Proof.
  intros Hne Hnl. unfold fullmatch.
  rewrite rmatch_seq, text_prefix, rmatch_seq.
  unfold some_text, Plus. rewrite rmatch_group, rmatch_seq.
  destruct t as [|c t]; [done|].
  apply not_elem_of_cons in Hnl as [Hc Hnl].
  unfold dot at 1. rewrite rmatch_chr_accept
    by (apply negb_true_iff, Ascii.eqb_neq; congruence).
  unfold dot. rewrite rmatch_star.
  apply star_loop_chr_all; [done | by apply dot_accepts |].
  unfold opt_qmark, lit_ignorecase. rewrite rmatch_opt_at_end.
  simpl. by rewrite take_ge.
Qed.

Lemma tail_one_line (w : str) : Char.LF ∉ w -> Char.LF ∉ w ++ "?".
Proof.
  intros Hw Hin. apply elem_of_app in Hin as [Hin|Hin]; [done|].
  apply list_elem_of_singleton in Hin. discriminate.
Qed.

Lemma reflect_group_insert n fragment (g : captures) :
  reflect_group n (<[n := fragment]> g) = Return (reflect fragment).
Proof. unfold reflect_group, group. by rewrite lookup_insert_eq. Qed.

Lemma strip_why_dont_you (w : str) :
  Str.strip ("Why don't you " ++ w ++ "?") = "Why don't you " ++ w ++ "?".
Proof.
  apply (StrFacts.strip_tight "W" ("hy don't you " ++ w) "?"); reflexivity.
Qed.

Lemma strip_why_cant_i (w : str) :
  Str.strip ("Why can't I " ++ w ++ "?") = "Why can't I " ++ w ++ "?".
Proof.
  apply (StrFacts.strip_tight "W" ("hy can't I " ++ w) "?"); reflexivity.
Qed.

(** The second rule on a one-line question. *)
Lemma respond_why_dont_you (w : str) :
  Char.LF ∉ w ->
  get_eliza_response ("Why don't you " ++ w ++ "?")
  = Return ("Do you really think I don't " ++ reflect (w ++ "?") ++ "?").
Proof.
  intros Hw. unfold get_eliza_response, patterns. cbn [respond_with].
  rewrite strip_why_dont_you.
  change (fullmatch (Seq (text "I need ") some_text) _) with (@None captures).
  rewrite greedy_group_takes_all;
    [| by destruct w | by apply tail_one_line].
  by rewrite reflect_group_insert.
Qed.

(** The third rule on a one-line question. *)
Lemma respond_why_cant_i (w : str) :
  Char.LF ∉ w ->
  get_eliza_response ("Why can't I " ++ w ++ "?")
  = Return ("Maybe you could " ++ reflect (w ++ "?") ++ " if you tried.").
Proof.
  intros Hw. unfold get_eliza_response, patterns. cbn [respond_with].
  rewrite strip_why_cant_i.
  change (fullmatch (Seq (text "I need ") some_text) _) with (@None captures).
  change (fullmatch (Seq (text "Why don't you ") _) _) with (@None captures).
  rewrite greedy_group_takes_all;
    [| by destruct w | by apply tail_one_line].
  by rewrite reflect_group_insert.
Qed.

(** The two ways a call ends: a rule's reply when the trimmed input is a
    single line, the fallback string when it holds a line feed. *)
Lemma get_eliza_response_cases (user_input : str) :
  exists reply : str,
    get_eliza_response user_input = Return reply
    /\ reply <> []
    /\ (Char.LF ∉ Str.strip user_input -> reply <> fallback)
    /\ (Char.LF ∈ Str.strip user_input -> reply = fallback).
Proof.
  destruct (respond_with_total patterns user_input patterns_answer)
    as (reply & Hreply & Hne).
  exists reply. split; [exact Hreply|]. split; [exact Hne|]. split.
  - intros Hnl ->. revert Hreply.
    apply respond_with_hit; [apply patterns_answer|].
    unfold patterns. do 7 apply Exists_cons_tl. apply Exists_cons_hd.
    simpl. by rewrite (any_text_fullmatch _ Hnl).
  - intros Hnl. unfold get_eliza_response in Hreply.
    rewrite respond_with_miss in Hreply; [congruence|].
    eapply Forall_impl; [apply patterns_reject_LF|].
    intros r Hr. by apply (fullmatch_rejects Char.LF).
Qed.

(** First match wins: the reply is that of the first rule, in table
    order, whose pattern matches the whole trimmed input. *)
Lemma respond_with_first rules user_input i pattern response m :
  rules !! i = Some (pattern, response) ->
  fullmatch pattern (Str.strip user_input) = Some m ->
  (forall j r, j < i -> rules !! j = Some r ->
     fullmatch r.1 (Str.strip user_input) = None) ->
  respond_with rules user_input = response m.
Proof.
  revert i. induction rules as [|[pattern' response'] rules IH];
    intros i Hi Hm Hbefore; [done|].
  destruct i as [|i]; simpl in *.
  - injection Hi as -> ->. by rewrite Hm.
  - pose proof (Hbefore 0 (pattern', response') ltac:(lia) eq_refl) as Hmiss.
    simpl in Hmiss. rewrite Hmiss.
    apply (IH i); [done..|].
    intros j r Hj Hr. apply (Hbefore (S j)); [lia | done].
Qed.

End ElizaFacts.

(** * The specification's claims *)

Import Re Eliza ReFacts ElizaFacts.

Ltac absent :=
  let H := fresh in
  intros H; repeat (apply elem_of_cons in H as [H|H]; [discriminate|]);
  by apply elem_of_nil in H.

(** ** ELIZA: worked replies *)

(** C4. [get_eliza_response] answers "I need help" with
    "Why do you need help?" and "I am tired" with
    "How long have you been tired?": in each case the reply comes from the
    first rule, in table order, whose pattern matches the whole input (the
    first and the fifth), applied to the reflected capture. *)
Theorem respond_need_and_am :
  get_eliza_response "I need help" = Return ("Why do you need help?" : str)
  /\ get_eliza_response "I am tired"
     = Return ("How long have you been tired?" : str)
  /\ map (fun r : rule => group 1 <$> fullmatch r.1 (Str.strip "I need help"))
       (take 1 patterns)
     = [Some (Some ("help" : str))]
  /\ map (fun r : rule => group 1 <$> fullmatch r.1 (Str.strip "I am tired"))
       (take 5 patterns)
     = [None; None; None; None; Some (Some ("tired" : str))]
  /\ reflect "help" = "help" /\ reflect "tired" = "tired".
Proof. repeat split; vm_compute; reflexivity. Qed.

(** C5. [get_eliza_response] answers "I can't sleep" with
    "What makes you think you can't sleep?", and "hello there", which only
    the catch-all rule matches, with "Please tell me more.". *)
Theorem respond_cant_and_catch_all :
  get_eliza_response "I can't sleep"
  = Return ("What makes you think you can't sleep?" : str)
  /\ get_eliza_response "hello there" = Return ("Please tell me more." : str)
  /\ map (fun r : rule => group 1 <$> fullmatch r.1 (Str.strip "I can't sleep"))
       (take 4 patterns)
     = [None; None; None; Some (Some ("sleep" : str))]
  /\ map (fun r : rule => group 1 <$> fullmatch r.1 (Str.strip "hello there"))
       patterns
     = [None; None; None; None; None; None; None;
        Some (Some ("hello there" : str))].
Proof. repeat split; vm_compute; reflexivity. Qed.

(** ** ELIZA: reflection *)

(** C6. [reflect] lower-cases the fragment, cuts it into its maximal
    whitespace-free runs in order (the one list of words that does so),
    replaces every run that is a key of [reflections] by the value stored
    for it and keeps every other run, and joins the results with single
    spaces.  In particular [reflect "i am happy"] is "you are happy". *)
Theorem reflect_word_by_word :
  (forall fragment : str,
     exists words replaced : list str,
       Str.runs (map Char.tolower fragment) words
       /\ (forall words', Str.runs (map Char.tolower fragment) words' ->
             words' = words)
       /\ Forall2 (fun w w' : str =>
                     match reflections !! w with
                     | Some v => w' = v
                     | None => w' = w
                     end) words replaced
       /\ reflect fragment = Str.join [Char.SPACE] replaced)
  /\ reflect "i am happy" = "you are happy".
Proof.
  split; [|vm_compute; reflexivity].
  intros fragment.
  exists (Str.split (Str.lower fragment)),
         (map reflect_token (Str.split (Str.lower fragment))).
  split; [apply StrFacts.split_runs|].
  split; [apply StrFacts.runs_split|]. split; [|reflexivity].
  apply Forall2_fmap_r, Forall_Forall2_diag, Forall_forall.
  intros w _. unfold reflect_token, compose. by destruct (reflections !! w).
Qed.

(** ** ELIZA: totality and the catch-all rule *)



(** C9, as the code has it.  The fallback string after the loop is
    returned exactly for the inputs whose trimmed form holds a line feed;
    for every other input the catch-all pattern matches the trimmed input,
    so a rule fires before the loop ends. *)
Theorem fallback_iff_line_feed (user_input : str) :
  get_eliza_response user_input = Return fallback
  <-> Char.LF ∈ Str.strip user_input.
Proof.
  destruct (get_eliza_response_cases user_input)
    as (reply & Hreply & _ & Hone & Htwo).
  rewrite Hreply. split.
  - intros [= ->].
    destruct (decide (Char.LF ∈ Str.strip user_input)) as [|Hnl]; [done|].
    by destruct (Hone Hnl).
  - intros Hnl. by rewrite (Htwo Hnl).
Qed.

(** C9, as stated, fails: on a two-line input no rule fires and the
    fallback return is reached. *)
Lemma fallback_reached_on_two_lines :
  Char.LF ∈ Str.strip two_lines
  /\ Forall (fun r : rule => fullmatch r.1 (Str.strip two_lines) = None)
       patterns
  /\ get_eliza_response two_lines = Return fallback.
Proof.
  split; [|split].
  - replace (Str.strip two_lines) with two_lines by (vm_compute; reflexivity).
    unfold two_lines. rewrite !elem_of_app, list_elem_of_singleton. tauto.
  - unfold patterns.
    repeat (constructor; [vm_compute; reflexivity|]). constructor.
  - vm_compute. reflexivity.
Qed.

(** C10, as the code has it.  For every non-empty [w] without a line
    feed, the input "Why don't you " ++ w ++ "?" is matched by the second
    rule with group 1 holding [w ++ "?"], question mark included, and that
    whole fragment is reflected into the reply; likewise for the third rule
    and "Why can't I ". *)
Theorem greedy_capture_keeps_question_mark (w : str) :
  w <> [] -> Char.LF ∉ w ->
  exists pattern2 response2 pattern3 response3,
    patterns !! 1 = Some (pattern2, response2)
    /\ patterns !! 2 = Some (pattern3, response3)
    /\ group 1 <$> fullmatch pattern2 (Str.strip ("Why don't you " ++ w ++ "?"))
       = Some (Some (w ++ "?"))
    /\ get_eliza_response ("Why don't you " ++ w ++ "?")
       = Return ("Do you really think I don't " ++ reflect (w ++ "?") ++ "?")
    /\ group 1 <$> fullmatch pattern3 (Str.strip ("Why can't I " ++ w ++ "?"))
       = Some (Some (w ++ "?"))
    /\ get_eliza_response ("Why can't I " ++ w ++ "?")
       = Return ("Maybe you could " ++ reflect (w ++ "?") ++ " if you tried.").
Proof.
  intros _ Hw. eexists _, _, _, _.
  split; [reflexivity|]. split; [reflexivity|].
  split; [|split; [|split]].
  - rewrite strip_why_dont_you, greedy_group_takes_all;
      [| by destruct w | by apply tail_one_line].
    simpl. unfold group. by rewrite lookup_insert_eq.
  - by apply respond_why_dont_you.
  - rewrite strip_why_cant_i, greedy_group_takes_all;
      [| by destruct w | by apply tail_one_line].
    simpl. unfold group. by rewrite lookup_insert_eq.
  - by apply respond_why_cant_i.
Qed.

(** The same at [w = "call"]. *)
Lemma greedy_capture_keeps_question_mark_witness :
  ("call" : str) <> [] /\ (Char.LF ∉ ("call" : str))
  /\ get_eliza_response "Why don't you call?"
     = Return ("Do you really think I don't call??" : str).
Proof.
  split; [discriminate|]. split; [absent|].
  destruct (greedy_capture_keeps_question_mark "call")
    as (? & ? & ? & ? & _ & _ & _ & H & _); [discriminate | absent |].
  exact H.
Defined.

(** C10, as stated, fails: with a line feed inside [w] the second rule
    captures nothing, and the reply is the fallback rather than a
    reflection of [w ++ "?"]. *)
Lemma greedy_capture_lost_on_two_lines :
  two_lines <> []
  /\ (exists pattern2 response2,
        patterns !! 1 = Some (pattern2, response2)
        /\ fullmatch pattern2 (Str.strip ("Why don't you " ++ two_lines ++ "?"))
           = None)
  /\ get_eliza_response ("Why don't you " ++ two_lines ++ "?") = Return fallback
  /\ get_eliza_response ("Why don't you " ++ two_lines ++ "?")
     <> Return ("Do you really think I don't "
                ++ reflect (two_lines ++ "?") ++ "?").
Proof.
  split; [discriminate|]. split; [|split].
  - eexists _, _. split; [reflexivity | vm_compute; reflexivity].
  - vm_compute. reflexivity.
  - vm_compute. discriminate.
Qed.

(** ** Tokenizer *)

Import Tokenization.

(** C1, on the code.  On the sample sentence the pattern matches the six
    stretches of text one expects, among them "U.S.A.", "poster-print",
    "$12.40" and "...".  But the pattern has three capturing groups, so
    [findall], and with it [tokenize_text], reports for each match the
    triple of its groups: none of the four strings is a token of the
    result. *)
Theorem tokenize_text_reports_groups :
  map fst (scan pattern example_text)
  = [ "That" : str; "U.S.A." : str; "poster-print" : str; "costs" : str;
      "$12.40" : str; "..." : str ]
  /\ ngroups pattern = 3
  /\ tokenize_text example_text
     = [ Tuple [ []; []; [] ];
         Tuple [ "A." : str; []; [] ];
         Tuple [ []; "-print" : str; [] ];
         Tuple [ []; []; [] ];
         Tuple [ []; []; ".40" : str ];
         Tuple [ []; []; [] ] ]
  /\ Forall (fun token : str => Text token ∉ tokenize_text example_text)
       [ "U.S.A." : str; "poster-print" : str; "$12.40" : str; "..." : str ].
Proof.
  split; [vm_compute; reflexivity|]. split; [reflexivity|].
  assert (tokenize_text example_text
     = [ Tuple [ []; []; [] ];
         Tuple [ "A." : str; []; [] ];
         Tuple [ []; "-print" : str; [] ];
         Tuple [ []; []; [] ];
         Tuple [ []; []; ".40" : str ];
         Tuple [ []; []; [] ] ]) as -> by (vm_compute; reflexivity).
  split; [reflexivity|].
  repeat constructor; absent.
Qed.

(** ** Analysis pipeline *)

(** C2, as the code has it.  [text_analysis_pipeline] raises its
    [ValueError] exactly when the text is empty, and then before printing
    anything; for every other text, whitespace-only ones included, it
    prints its four lines and returns. *)
Theorem pipeline_raises_iff_empty (text : str) :
  (text_analysis_pipeline text
   = ([], Raise (ValueError "Text input cannot be empty." None))
   <-> text = [])
  /\ ((exists e, (text_analysis_pipeline text).2 = Raise e) <-> text = [])
  /\ (text <> [] ->
      text_analysis_pipeline text
      = ([ NumberOfTokens (length (tokenize_text text));
           VocabularySize (size (list_to_set (tokenize_text text) : gset item));
           VocabularySet (list_to_set (tokenize_text text));
           EstimatedVocabularySize
             (heaps_law_estimation (length (tokenize_text text))
                default_beta default_k) ],
         Return tt)).
Proof.
  destruct text as [|c text]; simpl.
  - split; [done|]. split; [|done]. split; [done | eauto].
  - split; [split; discriminate|]. split; [|done].
    split; [intros [e He]|]; discriminate.
Qed.

(** The same at a one-word text. *)
Lemma pipeline_raises_iff_empty_witness :
  ("That" : str) <> []
  /\ text_analysis_pipeline "That"
     = ([ NumberOfTokens 1; VocabularySize 1;
          VocabularySet {[ Tuple [ []; []; [] ] ]};
          EstimatedVocabularySize
            (FloatMul (FloatLiteral "10.0")
               (FloatPow (FloatOfInt 1) (FloatLiteral "0.7"))) ],
        Return tt).
Proof.
  split; [discriminate|].
  destruct (pipeline_raises_iff_empty "That") as (_ & _ & H).
  rewrite H by discriminate. vm_compute. reflexivity.
Defined.

(** C2, as stated, fails: a text of one space is whitespace-only, yet the
    pipeline prints its report (no token, empty vocabulary) and returns
    without raising. *)
Lemma pipeline_accepts_blank_text :
  Str.isspace " " = true
  /\ text_analysis_pipeline " "
     = ([ NumberOfTokens 0; VocabularySize 0; VocabularySet ∅;
          EstimatedVocabularySize
            (FloatMul (FloatLiteral "10.0")
               (FloatPow (FloatOfInt 0) (FloatLiteral "0.7"))) ],
        Return tt).
Proof. split; vm_compute; reflexivity. Qed.

(** ** Generic helper *)

Import Helper.


(** * Further properties *)

(** ** Scanning a subject for matches *)

Module ScanFacts.
Import Re ReFacts.

(** A run reads a prefix of the subject. *)
Lemma matches_split r s g s' g' :
  matches r s g s' g' -> exists u, s = u ++ s'.
Proof.
  induction 1 as [s g|p c s g Hp|r1 r2 s g s1 g1 s2 g2 _ IH1 _ IH2
                 |r1 r2 s g s' g' _ IH|r1 r2 s g s' g' _ IH
                 |r s g|r s g s1 g1 s2 g2 _ IH1 _ _ IH2|n r s g s' g' _ IH];
    try done.
  - by exists [].
  - by exists [c].
  - destruct IH1 as [u1 ->], IH2 as [u2 ->]. exists (u1 ++ u2).
    by rewrite <- app_assoc.
  - by exists [].
  - destruct IH1 as [u1 ->], IH2 as [u2 ->]. exists (u1 ++ u2).
    by rewrite <- app_assoc.
Qed.

(** The matcher only asks its continuation about the ends of runs. *)
Lemma star_loop_ext_on_runs {A} r fuel :
  (forall s g (k k' : @cont A),
     (forall s' g', matches r s g s' g' -> k s' g' = k' s' g') ->
     rmatch r s g k = rmatch r s g k') ->
  forall s g (k k' : @cont A),
    (forall s' g', matches (Star r) s g s' g' -> k s' g' = k' s' g') ->
    star_loop (rmatch r) fuel s g k = star_loop (rmatch r) fuel s g k'.
Proof.
  intros Hbody. induction fuel as [|fuel IH]; intros s g k k' Hk; simpl.
  - apply Hk. constructor.
  - rewrite (Hbody s g _ (fun s' g' =>
      if (length s' <? length s)%nat
      then star_loop (rmatch r) fuel s' g' k' else None)).
    + rewrite (Hk s g); [done | constructor].
    + intros s1 g1 Hrun.
      destruct (length s1 <? length s)%nat eqn:Hlt; [|done].
      apply Nat.ltb_lt in Hlt. apply IH. intros s2 g2 Hmore.
      apply Hk. by apply (matches_star_more r s g s1 g1).
Qed.

Lemma rmatch_ext_on_runs {A} r :
  forall s g (k k' : @cont A),
    (forall s' g', matches r s g s' g' -> k s' g' = k' s' g') ->
    rmatch r s g k = rmatch r s g k'.
Proof.
  induction r as [|p|r1 IH1 r2 IH2|r1 IH1 r2 IH2|r IH|n r IH];
    intros s g k k' Hk; simpl.
  - apply Hk. constructor.
  - destruct s as [|c s]; [done|]. destruct (p c) eqn:Hp; [|done].
    apply Hk. by constructor.
  - apply IH1. intros s1 g1 H1. apply IH2. intros s2 g2 H2.
    apply Hk. by apply (matches_seq r1 r2 s g s1 g1).
  - rewrite (IH1 s g k k'), (IH2 s g k k'); [done|..];
      intros s' g' Hrun; apply Hk; by constructor.
  - apply star_loop_ext_on_runs; [exact IH | exact Hk].
  - apply IH. intros s' g' Hrun. apply Hk. by constructor.
Qed.

(** A pattern that reads a character on every run never matches the
    empty string. *)
Lemma consumes_shorter r s g s' g' :
  matches r s g s' g' -> Shape.consumes r = true -> length s' < length s.
Proof.
  induction 1 as [s g|p c s g Hp|r1 r2 s g s1 g1 s2 g2 H1 IH1 H2 IH2
                 |r1 r2 s g s' g' _ IH|r1 r2 s g s' g' _ IH
                 |r s g|r s g s1 g1 s2 g2 _ IH1 _ _ IH2|n r s g s' g' _ IH];
    simpl; intros Hc; try discriminate; auto.
  - apply matches_shorter in H1 as Hle1. apply matches_shorter in H2 as Hle2.
    apply orb_prop in Hc as [Hc|Hc]; [specialize (IH1 Hc) | specialize (IH2 Hc)];
      lia.
  - apply andb_prop in Hc as [Hc _]. auto.
  - apply andb_prop in Hc as [_ Hc]. auto.
Qed.

Lemma match_here_consuming r must_advance s :
  Shape.consumes r = true ->
  match_here r must_advance s = match_here r false s.
Proof.
  intros Hc. unfold match_here. apply rmatch_ext_on_runs.
  intros s' g' Hrun. apply consumes_shorter in Hrun; [|done].
  replace (length s' =? length s)%nat with false
    by (symmetry; apply Nat.eqb_neq; lia).
  by rewrite andb_false_r.
Qed.

Lemma search_consuming r must_advance s :
  Shape.consumes r = true -> search r must_advance s = search r false s.
Proof. intros Hc. destruct s; simpl; by rewrite match_here_consuming. Qed.

(** What a match attempt returns is the end of a run. *)
Lemma match_here_run r s s' g :
  match_here r false s = Some (s', g) ->
  matches r s ∅ s' g /\ exists whole, s = whole ++ s'.
Proof.
  unfold match_here. intros Hrun.
  apply rmatch_sound in Hrun as (s1 & g1 & Hm & Hk).
  simpl in Hk. injection Hk as <- <-. split; [done|].
  by apply matches_split in Hm.
Qed.

Lemma take_consumed (w s' : str) :
  take (length (w ++ s') - length s') (w ++ s') = w.
Proof. rewrite length_app, Nat.add_sub. apply take_app_length. Qed.

Lemma take_gap (gap w s' : str) :
  take (length (gap ++ w ++ s') - length w - length s') (gap ++ w ++ s') = gap.
Proof.
  rewrite !length_app.
  replace (length gap + (length w + length s') - length w - length s')
    with (length gap) by lia.
  apply take_app_length.
Qed.

(** [search] returns the leftmost match: the subject is a gap, the match
    and the rest, and no match starts inside the gap. *)
Lemma search_leftmost r s :
  forall whole s' g,
    search r false s = Some (whole, s', g) ->
    exists gap,
      s = gap ++ whole ++ s'
      /\ match_here r false (whole ++ s') = Some (s', g)
      /\ forall gap1 gap2, gap = gap1 ++ gap2 -> gap2 <> [] ->
           match_here r false (gap2 ++ whole ++ s') = None.
Proof.
  induction s as [|c s IH]; intros whole s' g Hsearch.
  - simpl in Hsearch.
    destruct (match_here r false []) as [[s1 g1]|] eqn:Hhere; [|discriminate].
    apply match_here_run in Hhere as Hrun. destruct Hrun as [_ [w Hw]].
    symmetry in Hw. apply app_eq_nil in Hw as [-> ->].
    injection Hsearch as <- <- <-.
    exists []. repeat split; [done|].
    intros gap1 gap2 Hg. symmetry in Hg. by apply app_eq_nil in Hg as [_ ->].
  - cbn [search] in Hsearch.
    destruct (match_here r false (c :: s)) as [[s1 g1]|] eqn:Hhere.
    + apply match_here_run in Hhere as Hrun. destruct Hrun as [_ [w Hw]].
      rewrite Hw in Hsearch, Hhere |- *. rewrite take_consumed in Hsearch.
      injection Hsearch as <- <- <-.
      exists []. repeat split; [done|].
      intros gap1 gap2 Hg. symmetry in Hg. by apply app_eq_nil in Hg as [_ ->].
    + destruct (IH _ _ _ Hsearch) as (gap & Hs & Hm & Hgap).
      exists (c :: gap). split; [by rewrite Hs|].
      split; [done|]. intros gap1 gap2 Hg Hne.
      destruct gap1 as [|c1 gap1]; simpl in Hg.
      * subst gap2. simpl. by rewrite <- Hs.
      * injection Hg as <- ->. by apply (Hgap gap1).
Qed.

(** When [search] finds nothing, no match starts anywhere. *)
Lemma search_none r s :
  search r false s = None ->
  forall s1 s2, s = s1 ++ s2 -> match_here r false s2 = None.
Proof.
  induction s as [|c s IH]; simpl.
  - destruct (match_here r false []) as [[]|] eqn:Hhere; [discriminate|].
    intros _ s1 s2 Hs. symmetry in Hs. by apply app_eq_nil in Hs as [_ ->].
  - destruct (match_here r false (c :: s)) as [[]|] eqn:Hhere; [discriminate|].
    intros Hrest s1 s2 Hs. destruct s1 as [|c1 s1]; simpl in Hs.
    + by subst s2.
    + injection Hs as -> ->. by apply (IH Hrest s1).
Qed.

(** The match found by [search] is not longer than the subject, and for a
    consuming pattern it is not empty. *)
Lemma search_consumes r s whole s' g :
  Shape.consumes r = true ->
  search r false s = Some (whole, s', g) ->
  whole <> [] /\ length s' < length s.
Proof.
  intros Hc Hs. destruct (search_leftmost _ _ _ _ _ Hs) as (gap & -> & Hm & _).
  apply match_here_run in Hm as [Hrun _].
  apply consumes_shorter in Hrun; [|done].
  rewrite !length_app in *. split; [|lia].
  intros ->. simpl in Hrun. lia.
Qed.

(** For a consuming pattern the scan of [findall] is: find the leftmost
    match, then scan what follows it. *)
Lemma scan_unfold r s :
  Shape.consumes r = true ->
  scan r s = match search r false s with
             | None => []
             | Some (whole, s', g) => (whole, g) :: scan r s'
             end.
Proof.
  intros Hc. unfold scan at 1.
  replace (2 * length s + 2) with (S (2 * length s + 1)) by lia. simpl.
  destruct (search r false s) as [[[whole s'] g]|] eqn:Hs; [|done].
  destruct (search_consumes _ _ _ _ _ Hc Hs) as [Hne Hlt].
  replace (length whole =? 0)%nat with false
    by (symmetry; apply Nat.eqb_neq; by destruct whole).
  f_equal. unfold scan. apply scan_from_fuel; unfold scan_measure; lia.
Qed.

(** The loop of [sub] stops by itself before its fuel is spent. *)
Lemma sub_from_fuel r template fuel1 :
  forall fuel2 must_advance s,
    scan_measure must_advance s < fuel1 ->
    scan_measure must_advance s < fuel2 ->
    Subst.sub_from fuel1 r template must_advance s
    = Subst.sub_from fuel2 r template must_advance s.
Proof.
  induction fuel1 as [|fuel1 IH]; intros fuel2 must_advance s H1 H2; [lia|].
  destruct fuel2 as [|fuel2]; [lia|]. simpl.
  destruct (search r must_advance s) as [[[whole s'] g]|] eqn:Hsearch; [|done].
  apply search_progress in Hsearch.
  do 2 f_equal. apply IH; lia.
Qed.

(** For a consuming pattern [sub] is: keep the gap before the leftmost
    match, expand the template, and go on after the match. *)
Lemma sub_unfold r template s :
  Shape.consumes r = true ->
  Subst.sub r template s
  = match search r false s with
    | None => s
    | Some (whole, s', g) =>
        take (length s - length whole - length s') s
          ++ Subst.expand template g ++ Subst.sub r template s'
    end.
Proof.
  intros Hc. unfold Subst.sub at 1.
  replace (2 * length s + 2) with (S (2 * length s + 1)) by lia. simpl.
  destruct (search r false s) as [[[whole s'] g]|] eqn:Hs; [|done].
  destruct (search_consumes _ _ _ _ _ Hc Hs) as [Hne Hlt].
  replace (length whole =? 0)%nat with false
    by (symmetry; apply Nat.eqb_neq; by destruct whole).
  do 2 f_equal. unfold Subst.sub.
  apply sub_from_fuel; unfold scan_measure; lia.
Qed.

End ScanFacts.

(** ** Matching particular shapes of pattern *)

Module PatternFacts.
Import Re ReFacts ScanFacts Shape.

(** *** One step of [findall] and of [sub] *)

Lemma search_unfold r must_advance s :
  search r must_advance s
  = match match_here r must_advance s with
    | Some (s', g) => Some (take (length s - length s') s, s', g)
    | None => match s with
              | [] => None
              | _ :: rest => search r false rest
              end
    end.
Proof. by destruct s. Qed.

Lemma search_hit r s s' g :
  match_here r false s = Some (s', g) ->
  exists whole, s = whole ++ s' /\ search r false s = Some (whole, s', g).
Proof.
  intros Hm. destruct (match_here_run _ _ _ _ Hm) as [_ [whole ->]].
  exists whole. split; [done|].
  rewrite search_unfold, Hm. by rewrite take_consumed.
Qed.

Lemma search_skip r c s :
  match_here r false (c :: s) = None ->
  search r false (c :: s) = search r false s.
Proof. intros Hm. simpl. by rewrite Hm. Qed.

Lemma scan_hit r s s' g :
  consumes r = true -> match_here r false s = Some (s', g) ->
  exists whole, s = whole ++ s' /\ scan r s = (whole, g) :: scan r s'.
Proof.
  intros Hc Hm. destruct (search_hit _ _ _ _ Hm) as (whole & Hs & Hsearch).
  exists whole. split; [done|]. by rewrite scan_unfold, Hsearch.
Qed.

Lemma scan_skip r c s :
  consumes r = true -> match_here r false (c :: s) = None ->
  scan r (c :: s) = scan r s.
Proof.
  intros Hc Hm. rewrite (scan_unfold r (c :: s)), (scan_unfold r s) by done.
  by rewrite search_skip.
Qed.

Lemma scan_nil r : consumes r = true -> scan r [] = [].
Proof.
  intros Hc. rewrite scan_unfold by done.
  destruct (search r false []) as [[[whole s'] g]|] eqn:Hs; [|done].
  apply search_consumes in Hs as [_ Hlt]; [simpl in Hlt; lia | done].
Qed.

Lemma sub_hit r template s s' g :
  consumes r = true -> match_here r false s = Some (s', g) ->
  Subst.sub r template s
  = Subst.expand template g ++ Subst.sub r template s'.
Proof.
  intros Hc Hm. destruct (search_hit _ _ _ _ Hm) as (whole & Hs & Hsearch).
  rewrite sub_unfold, Hsearch by done. subst s.
  pose proof (take_gap [] whole s') as Htake. simpl in Htake.
  by rewrite Htake.
Qed.

Lemma sub_skip r template c s :
  consumes r = true -> match_here r false (c :: s) = None ->
  Subst.sub r template (c :: s) = c :: Subst.sub r template s.
Proof.
  intros Hc Hm.
  rewrite (sub_unfold r template (c :: s)), (sub_unfold r template s) by done.
  rewrite search_skip by done.
  destruct (search r false s) as [[[whole s'] g]|] eqn:Hs; [|done].
  destruct (search_leftmost _ _ _ _ _ Hs) as (gap & -> & _).
  rewrite take_gap.
  change (c :: gap ++ whole ++ s') with ((c :: gap) ++ whole ++ s').
  by rewrite take_gap.
Qed.

Lemma sub_nil r template : consumes r = true -> Subst.sub r template [] = [].
Proof.
  intros Hc. rewrite sub_unfold by done.
  destruct (search r false []) as [[[whole s'] g]|] eqn:Hs; [|done].
  apply search_consumes in Hs as [_ Hlt]; [simpl in Hlt; lia | done].
Qed.

(** *** Runs of one class of characters *)

Lemma while_after p s : while p s ++ after p s = s.
Proof.
  induction s as [|c s IH]; simpl; [done|].
  destruct (p c); simpl; [by rewrite IH | done].
Qed.

Lemma while_all p s : Forall (fun c => p c = true) (while p s).
Proof.
  induction s as [|c s IH]; simpl; [constructor|].
  destruct (p c) eqn:Hp; by constructor.
Qed.

Lemma after_shorter p s : length (after p s) <= length s.
Proof.
  induction s as [|c s IH]; simpl; [done|]. destruct (p c); simpl; lia.
Qed.

Lemma after_head p s :
  match after p s with [] => True | c :: _ => p c = false end.
Proof.
  induction s as [|c s IH]; simpl; [done|]. by destruct (p c) eqn:Hp.
Qed.

(** The greedy loop over one class reads the whole run of the class, when
    the rest of the pattern accepts to go on from there. *)
Lemma star_loop_chr_greedy {A} p fuel s g (k : @cont A) a :
  length s <= fuel -> k (after p s) g = Some a ->
  star_loop (rmatch (Chr p)) fuel s g k = Some a.
Proof.
  revert fuel. induction s as [|c s IH]; intros fuel Hfuel Hk.
  - destruct fuel; simpl in *; [done | by rewrite Hk].
  - destruct fuel as [|fuel]; simpl in Hfuel; [lia|]. simpl in *.
    destruct (p c).
    + replace (length s <? S (length s))%nat with true
        by (symmetry; apply Nat.ltb_lt; lia).
      rewrite IH; [done | lia | done].
    + done.
Qed.

Lemma match_here_plus p s :
  match_here (Plus (Chr p)) false s
  = match s with
    | c :: s' => if p c then Some (after p s', ∅) else None
    | [] => None
    end.
Proof.
  unfold match_here, Plus. rewrite rmatch_seq.
  destruct s as [|c s]; [done|].
  destruct (p c) eqn:Hp; [|simpl; by rewrite Hp].
  rewrite rmatch_chr_accept, rmatch_star by done.
  by apply star_loop_chr_greedy.
Qed.

Lemma match_here_group_plus p s :
  match_here (Group 1 (Plus (Chr p))) false s
  = match s with
    | c :: s' =>
        if p c then Some (after p s', <[1 := c :: while p s']> ∅) else None
    | [] => None
    end.
Proof.
  unfold match_here, Plus. rewrite rmatch_group, rmatch_seq.
  destruct s as [|c s]; [done|].
  destruct (p c) eqn:Hp; [|simpl; by rewrite Hp].
  rewrite rmatch_chr_accept, rmatch_star by done.
  apply star_loop_chr_greedy; [done|]. cbn beta. do 3 f_equal.
  assert (c :: s = (c :: while p s) ++ after p s) as Hs
    by (simpl; by rewrite while_after).
  rewrite Hs. apply take_consumed.
Qed.

Lemma chunks_from_run p run s :
  run <> [] ->
  chunks_from p run s = (run ++ while p s) :: chunks_from p [] (after p s).
Proof.
  revert run. induction s as [|c s IH]; intros run Hrun; simpl.
  - rewrite app_nil_r. by destruct run.
  - destruct (p c) eqn:Hp.
    + rewrite IH by (by destruct run). by rewrite <- app_assoc.
    + rewrite app_nil_r. simpl. rewrite Hp. by destruct run.
Qed.

Lemma chunks_cons p c s :
  chunks p (c :: s)
  = if p c then (c :: while p s) :: chunks p (after p s) else chunks p s.
Proof.
  unfold chunks. simpl. destruct (p c); [|done].
  by rewrite chunks_from_run.
Qed.

(** Induction on strings by length: the scan jumps over whole matches. *)
Lemma str_length_ind (P : str -> Prop) :
  (forall s, (forall t, length t < length s -> P t) -> P s) ->
  forall s, P s.
Proof.
  intros Hstep s. remember (length s) as n eqn:Hn. revert s Hn.
  induction (lt_wf n) as [n _ IH]. intros s ->.
  apply Hstep. intros t Ht. by apply (IH (length t)).
Qed.

Lemma filter_while p s : List.filter p (while p s) = while p s.
Proof.
  induction s as [|c s IH]; simpl; [done|].
  destruct (p c) eqn:Hp; simpl; [by rewrite Hp, IH | done].
Qed.

(** The runs hold the accepted characters of the string, in order, and
    nothing else; none is empty. *)
Lemma chunks_concat p s : concat (chunks p s) = List.filter p s.
Proof.
  induction s as [s IH] using str_length_ind.
  destruct s as [|c s]; [done|]. rewrite chunks_cons. simpl.
  destruct (p c) eqn:Hp.
  - simpl. rewrite IH by (pose proof (after_shorter p s); simpl; lia).
    f_equal. rewrite <- (while_after p s) at 3.
    by rewrite List.filter_app, filter_while.
  - apply IH. simpl. lia.
Qed.

Lemma chunks_words p s :
  Forall (fun w => w <> [] /\ Forall (fun c => p c = true) w) (chunks p s).
Proof.
  induction s as [s IH] using str_length_ind.
  destruct s as [|c s]; [constructor|]. rewrite chunks_cons.
  destruct (p c) eqn:Hp.
  - constructor.
    + split; [done|]. constructor; [done | apply while_all].
    + apply IH. pose proof (after_shorter p s). simpl. lia.
  - apply IH. simpl. lia.
Qed.

(** [findall] of a class repeated with [+] returns the maximal runs of
    the class. *)
Lemma scan_plus p s :
  scan (Plus (Chr p)) s = map (fun w => (w, ∅)) (chunks p s).
Proof.
  induction s as [s IH] using str_length_ind.
  destruct s as [|c s]; [by rewrite scan_nil|].
  rewrite chunks_cons.
  pose proof (match_here_plus p (c :: s)) as Hm. cbn beta iota in Hm.
  destruct (p c) eqn:Hp.
  - apply scan_hit in Hm as (whole & Hs & ->); [|done].
    rewrite IH by (pose proof (after_shorter p s); simpl; lia).
    simpl. do 2 f_equal.
    assert (c :: s = (c :: while p s) ++ after p s) as Hs'
      by (simpl; by rewrite while_after).
    rewrite Hs' in Hs. by apply app_inv_tail in Hs.
  - rewrite scan_skip by done. apply IH. simpl. lia.
Qed.

Lemma findall_plus p s :
  Re.findall (Plus (Chr p)) s = map Text (chunks p s).
Proof.
  unfold Re.findall. rewrite scan_plus, map_map. done.
Qed.

(** *** Literal text *)

Lemma rmatch_lits {A} pat s g (k : @cont A) :
  rmatch (Lits lit pat) s g k
  = if decide (pat `prefix_of` s) then k (drop (length pat) s) g else None.
Proof.
  revert s. induction pat as [|a pat IH]; intros s.
  - change (rmatch (Lits lit []) s g k) with (k s g).
    destruct (decide ([] `prefix_of` s)) as [|Hn]; [done|].
    destruct Hn. apply prefix_nil.
  - change (Lits lit (a :: pat)) with (Seq (lit a) (Lits lit pat)).
    rewrite rmatch_seq. destruct s as [|c s].
    + destruct (decide (a :: pat `prefix_of` [])) as [Hp|]; [|done].
      by apply prefix_nil_not in Hp.
    + unfold lit at 1.
      destruct (Ascii.eqb_spec a c) as [->|Hne].
      * rewrite rmatch_chr_accept by apply Ascii.eqb_refl.
        rewrite IH.
        destruct (decide (pat `prefix_of` s)) as [Hp|Hn];
          destruct (decide (c :: pat `prefix_of` c :: s)) as [Hp'|Hn'];
          try done.
        -- exfalso. eauto using prefix_cons.
        -- exfalso. eauto using prefix_cons_inv_2.
      * destruct (decide (a :: pat `prefix_of` c :: s)) as [Hp|Hn].
        -- by apply prefix_cons_inv_1 in Hp.
        -- cbn. unfold Char.same. by destruct (Ascii.eqb_spec a c).
Qed.

Lemma match_here_lits pat s :
  match_here (Lits lit pat) false s
  = if decide (pat `prefix_of` s) then Some (drop (length pat) s, ∅) else None.
Proof. unfold match_here. by rewrite rmatch_lits. Qed.

Lemma consumes_lits pat : pat <> [] -> consumes (Lits lit pat) = true.
Proof. by destruct pat. Qed.

Lemma occurs_nil pat : pat <> [] -> ~ occurs pat [].
Proof.
  intros Hne (before & behind & Hs). symmetry in Hs.
  apply app_eq_nil in Hs as [_ Hs]. by apply app_eq_nil in Hs as [-> _].
Qed.

Lemma occurs_cons pat c s :
  occurs pat (c :: s) <-> pat `prefix_of` c :: s \/ occurs pat s.
Proof.
  split.
  - intros (before & behind & Hs). destruct before as [|b before]; simpl in Hs.
    + left. by exists behind.
    + right. injection Hs as -> ->. by exists before, behind.
  - intros [[behind Hs]|(before & behind & ->)].
    + by exists [], behind.
    + by exists (c :: before), behind.
Qed.

(** No run at all: no character of the class. *)
Lemma chunks_nil p s :
  chunks p s = [] <-> Forall (fun c => p c = false) s.
Proof.
  induction s as [s IH] using str_length_ind.
  destruct s as [|c s]; [split; [constructor | done]|].
  rewrite chunks_cons, Forall_cons. destruct (p c) eqn:Hp.
  - split; [done | by intros [? _]].
  - rewrite IH by (simpl; lia). tauto.
Qed.

End PatternFacts.

(** ** Substitutions *)

Module SubstFacts.
Import Re ReFacts ScanFacts PatternFacts Shape Subst.

Lemma convert_nil : convert_colour_to_color [] = [].
Proof. by apply sub_nil. Qed.

Lemma convert_hit (s : str) :
  convert_colour_to_color ("colour" ++ s)
  = "color" ++ convert_colour_to_color s.
Proof.
  unfold convert_colour_to_color.
  rewrite (sub_hit _ _ ("colour" ++ s) s ∅); [done..|].
  rewrite match_here_lits.
  destruct (decide (("colour" : str) `prefix_of` "colour" ++ s)) as [|Hn];
    [done|].
  destruct Hn. by exists s.
Qed.

Lemma convert_skip c (s : str) :
  ~ ("colour" : str) `prefix_of` c :: s ->
  convert_colour_to_color (c :: s) = c :: convert_colour_to_color s.
Proof.
  intros Hn. unfold convert_colour_to_color. apply sub_skip; [done|].
  rewrite match_here_lits. by destruct (decide _).
Qed.

(** A word without the letter c starts the result only if it starts the
    text: replacements begin with that letter. *)
Lemma convert_prefix (u s : str) :
  "c"%char ∉ u -> u `prefix_of` convert_colour_to_color s -> u `prefix_of` s.
Proof.
  revert s. induction u as [|a u IH]; intros s Hc Hp; [apply prefix_nil|].
  apply not_elem_of_cons in Hc as [Ha Hc].
  destruct s as [|c s].
  - rewrite convert_nil in Hp. by apply prefix_nil_not in Hp.
  - destruct (decide (("colour" : str) `prefix_of` c :: s)) as [[s' Hs]|Hn].
    + rewrite Hs, convert_hit in Hp. apply prefix_cons_inv_1 in Hp.
      congruence.
    + rewrite convert_skip in Hp by done.
      pose proof (prefix_cons_inv_1 _ _ _ _ Hp) as ->.
      apply prefix_cons, IH; [done|]. by apply prefix_cons_inv_2 in Hp.
Qed.

Lemma convert_clean (s : str) : ~ occurs "colour" (convert_colour_to_color s).
Proof.
  induction s as [s IH] using str_length_ind.
  destruct s as [|c s]; [rewrite convert_nil; by apply occurs_nil|].
  destruct (decide (("colour" : str) `prefix_of` c :: s)) as [[s' Hs]|Hn].
  - rewrite Hs, convert_hit.
    assert (length s' < length (c :: s)) as Hlt
      by (rewrite Hs, length_app; simpl; lia).
    specialize (IH s' Hlt). simpl.
    rewrite !occurs_cons.
    intros [Hp|[Hp|[Hp|[Hp|[Hp|Hp]]]]]; try done;
      try (apply prefix_cons_inv_1 in Hp; discriminate).
    do 4 apply prefix_cons_inv_2 in Hp.
    apply prefix_cons_inv_1 in Hp. discriminate.
  - rewrite convert_skip by done. rewrite occurs_cons.
    intros [Hp|Hp]; [|by apply (IH s); [simpl; lia|]].
    destruct Hn. pose proof (prefix_cons_inv_1 _ _ _ _ Hp) as <-.
    apply prefix_cons. apply prefix_cons_inv_2 in Hp.
    apply convert_prefix; [|done]. absent.
Qed.

Lemma convert_id (s : str) :
  ~ occurs "colour" s -> convert_colour_to_color s = s.
Proof.
  induction s as [|c s IH]; intros Hn; [apply convert_nil|].
  rewrite occurs_cons in Hn.
  rewrite convert_skip by tauto. f_equal. apply IH. tauto.
Qed.

Lemma bracket_nil : add_angle_brackets_around_numbers [] = [].
Proof. by apply sub_nil. Qed.

Lemma bracket_digit c (s : str) :
  Char.isdigit c = true ->
  add_angle_brackets_around_numbers (c :: s)
  = "<" ++ (c :: while Char.isdigit s) ++ ">"
    ++ add_angle_brackets_around_numbers (after Char.isdigit s).
Proof.
  intros Hc. unfold add_angle_brackets_around_numbers.
  pose proof (match_here_group_plus Char.isdigit (c :: s)) as Hm.
  cbn beta iota in Hm. rewrite Hc in Hm.
  rewrite (sub_hit _ _ _ _ _ (eq_refl : consumes (Group 1 (Plus (Chr Char.isdigit))) = true) Hm).
  unfold expand. simpl. rewrite lookup_insert_eq. simpl.
  by rewrite <- app_assoc.
Qed.

Lemma bracket_other c (s : str) :
  Char.isdigit c = false ->
  add_angle_brackets_around_numbers (c :: s)
  = c :: add_angle_brackets_around_numbers s.
Proof.
  intros Hc. unfold add_angle_brackets_around_numbers. apply sub_skip; [done|].
  pose proof (match_here_group_plus Char.isdigit (c :: s)) as Hm.
  cbn beta iota in Hm. by rewrite Hc in Hm.
Qed.

Lemma separated_cons_other c parts : separated parts -> separated (Other c :: parts).
Proof.
  intros Hsep before ds1 ds2 behind Heq.
  destruct before as [|b before]; [discriminate|].
  injection Heq as _ Heq. by apply (Hsep before ds1 ds2 behind).
Qed.

Lemma separated_cons_number ds parts :
  match parts with Number _ :: _ => False | _ => True end ->
  separated parts -> separated (Number ds :: parts).
Proof.
  intros Hhd Hsep before ds1 ds2 behind Heq.
  destruct before as [|b before].
  - injection Heq as _ Heq. by subst parts.
  - injection Heq as _ Heq. by apply (Hsep before ds1 ds2 behind).
Qed.

Lemma bracket_parts (text : str) :
  exists parts,
    text = concat (map part_text parts)
    /\ add_angle_brackets_around_numbers text = concat (map part_bracketed parts)
    /\ Forall proper_part parts /\ separated parts.
Proof.
  induction text as [s IH] using str_length_ind.
  destruct s as [|c s].
  - exists []. rewrite bracket_nil. repeat split; [constructor|].
    intros before ds1 ds2 behind Heq. by destruct before.
  - destruct (Char.isdigit c) eqn:Hc.
    + destruct (IH (after Char.isdigit s)) as (parts & Ht & Hb & Hp & Hs).
      { pose proof (after_shorter Char.isdigit s). simpl. lia. }
      exists (Number (c :: while Char.isdigit s) :: parts).
      rewrite bracket_digit by done. simpl. rewrite <- Ht, <- Hb.
      rewrite while_after. split; [done|]. split; [by rewrite <- !app_assoc|].
      split.
      * constructor; [|done]. split; [done|].
        constructor; [done | apply while_all].
      * apply separated_cons_number; [|done].
        destruct parts as [|[ds|] parts]; [done| |done].
        apply Forall_cons in Hp as [[Hne Hds] _].
        pose proof (after_head Char.isdigit s) as Hhead.
        rewrite Ht in Hhead. simpl in Hhead.
        destruct ds as [|d ds]; [done|]. apply Forall_cons in Hds as [Hd _].
        simpl in Hhead. congruence.
    + destruct (IH s) as (parts & Ht & Hb & Hp & Hs); [simpl; lia|].
      exists (Other c :: parts). rewrite bracket_other by done.
      simpl. rewrite <- Ht, <- Hb. repeat split; [by constructor|].
      by apply separated_cons_other.
Qed.

Lemma bracket_length (text : str) :
  length (add_angle_brackets_around_numbers text)
  = length text + 2 * length (chunks Char.isdigit text).
Proof.
  induction text as [s IH] using str_length_ind.
  destruct s as [|c s]; [by rewrite bracket_nil|].
  rewrite chunks_cons. destruct (Char.isdigit c) eqn:Hc.
  - rewrite bracket_digit by done.
    rewrite !length_app, IH
      by (pose proof (after_shorter Char.isdigit s); simpl; lia).
    pose proof (f_equal length (while_after Char.isdigit s)) as Hlen.
    rewrite length_app in Hlen. simpl. lia.
  - rewrite bracket_other by done. simpl. rewrite IH by (simpl; lia). lia.
Qed.

Lemma bracket_id (text : str) :
  add_angle_brackets_around_numbers text = text
  <-> Forall (fun c => Char.isdigit c = false) text.
Proof.
  split.
  - intros Hid. apply chunks_nil.
    pose proof (bracket_length text) as Hlen. rewrite Hid in Hlen.
    apply length_zero_iff_nil. lia.
  - induction 1 as [|c s Hc _ IH]; [apply bracket_nil|].
    by rewrite bracket_other, IH.
Qed.

End SubstFacts.

(** ** The two words of the disjunction demonstrations *)

Module DemoFacts.
Import Re ReFacts ScanFacts PatternFacts Shape Helper Demos.

Lemma match_here_cat_or_dog (s : str) :
  match_here cat_or_dog false s
  = if decide (("cat" : str) `prefix_of` s) then Some (drop 3 s, ∅)
    else if decide (("dog" : str) `prefix_of` s) then Some (drop 3 s, ∅)
    else None.
Proof.
  unfold match_here, cat_or_dog. cbn [rmatch]. rewrite !rmatch_lits.
  by repeat destruct (decide _).
Qed.

Lemma rmatch_opt_s s g :
  rmatch (Opt (lit "s"%char)) s g (fun s' g' => Some (s', g'))
  = Some (after_s s, g).
Proof.
  destruct s as [|c s]; [done|]. unfold Opt, lit, after_s. cbn [rmatch].
  by destruct (Char.same "s" c).
Qed.

Lemma take_before_drop (w t : str) :
  take (length (w ++ t) - length (drop (length w) (w ++ t))) (w ++ t) = w.
Proof. rewrite drop_app_length. apply take_consumed. Qed.

Lemma match_here_cats_or_dogs (s : str) :
  match_here cats_or_dogs false s
  = if decide (("cat" : str) `prefix_of` s)
    then Some (after_s (drop 3 s), <[1 := ("cat" : str)]> ∅)
    else if decide (("dog" : str) `prefix_of` s)
    then Some (after_s (drop 3 s), <[1 := ("dog" : str)]> ∅)
    else None.
Proof.
  unfold match_here, cats_or_dogs, cat_or_dog.
  rewrite rmatch_seq, rmatch_group. cbn [rmatch]. rewrite !rmatch_lits.
  cbn [andb].
  destruct (decide (("cat" : str) `prefix_of` s)) as [[t ->]|Hc].
  { by rewrite rmatch_opt_s, take_before_drop. }
  destruct (decide (("dog" : str) `prefix_of` s)) as [[t ->]|Hd].
  - by rewrite rmatch_opt_s, take_before_drop.
  - done.
Qed.

Lemma scan_after_s (s : str) :
  scan cat_or_dog (after_s s) = scan cat_or_dog s.
Proof.
  destruct s as [|c s]; [done|]. unfold after_s.
  destruct (Char.same "s" c) eqn:Hc; [|done].
  apply Ascii.eqb_eq in Hc as <-.
  rewrite (scan_skip cat_or_dog "s"%char s); [done..|].
  rewrite match_here_cat_or_dog.
  destruct (decide _) as [Hp|_]; [by apply prefix_cons_inv_1 in Hp|].
  destruct (decide _) as [Hp|_]; [by apply prefix_cons_inv_1 in Hp|done].
Qed.

Lemma after_s_shorter s : length (after_s s) <= length s.
Proof. destruct s as [|c s]; [done|]. unfold after_s. destruct (Char.same _ _); simpl; lia. Qed.

(** The plural pattern finds the same words as the singular one. *)
Lemma findall_cats_or_dogs (s : str) :
  Re.findall cats_or_dogs s = Re.findall cat_or_dog s.
Proof.
  unfold Re.findall.
  change (ngroups cats_or_dogs) with 1. change (ngroups cat_or_dog) with 0.
  induction s as [s IH] using str_length_ind.
  pose proof (match_here_cats_or_dogs s) as Hp.
  pose proof (match_here_cat_or_dog s) as Hs.
  assert (forall w t : str, s = w ++ t -> length w = 3 ->
            length (after_s (drop 3 s)) < length s) as Hlt.
  { intros w t -> Hw. pose proof (after_s_shorter (drop 3 (w ++ t))).
    rewrite length_drop, length_app in *. lia. }
  destruct (decide (("cat" : str) `prefix_of` s)) as [[t Ht]|Hc];
    [|destruct (decide (("dog" : str) `prefix_of` s)) as [[t Ht]|Hd]].
  - apply scan_hit in Hp as (w1 & _ & ->); [|done].
    apply scan_hit in Hs as (w2 & Hw2 & ->); [|done].
    cbn [map]. rewrite IH by (exact (Hlt _ t Ht eq_refl)). rewrite scan_after_s.
    f_equal. unfold item_of. cbn [fst snd]. rewrite lookup_insert_eq. cbn [default].
    f_equal. rewrite Ht in Hw2. simpl in Hw2. rewrite drop_0 in Hw2.
    apply (app_inv_tail t). exact Hw2.
  - apply scan_hit in Hp as (w1 & _ & ->); [|done].
    apply scan_hit in Hs as (w2 & Hw2 & ->); [|done].
    cbn [map]. rewrite IH by (exact (Hlt _ t Ht eq_refl)). rewrite scan_after_s.
    f_equal. unfold item_of. cbn [fst snd]. rewrite lookup_insert_eq. cbn [default].
    f_equal. rewrite Ht in Hw2. simpl in Hw2. rewrite drop_0 in Hw2.
    apply (app_inv_tail t). exact Hw2.
  - destruct s as [|c s]; [by rewrite !scan_nil|].
    rewrite !scan_skip by done. apply IH. simpl. lia.
Qed.

(** Either pattern reports nothing but the two words. *)
Lemma findall_cat_or_dog_items (s : str) :
  Forall (fun it => it = Text "cat" \/ it = Text "dog") (Re.findall cat_or_dog s).
Proof.
  unfold Re.findall. change (ngroups cat_or_dog) with 0.
  induction s as [s IH] using str_length_ind.
  pose proof (match_here_cat_or_dog s) as Hs.
  destruct (decide (("cat" : str) `prefix_of` s)) as [[t Ht]|Hc];
    [|destruct (decide (("dog" : str) `prefix_of` s)) as [[t Ht]|Hd]].
  - apply scan_hit in Hs as (w2 & Hw2 & ->); [|done].
    cbn [map]. constructor.
    + left. unfold item_of. cbn [fst]. f_equal.
      rewrite Ht in Hw2. simpl in Hw2. rewrite drop_0 in Hw2.
      apply (app_inv_tail t). exact (eq_sym Hw2).
    + apply IH. rewrite Ht. simpl. rewrite drop_0. lia.
  - apply scan_hit in Hs as (w2 & Hw2 & ->); [|done].
    cbn [map]. constructor.
    + right. unfold item_of. cbn [fst]. f_equal.
      rewrite Ht in Hw2. simpl in Hw2. rewrite drop_0 in Hw2.
      apply (app_inv_tail t). exact (eq_sym Hw2).
    + apply IH. rewrite Ht. simpl. rewrite drop_0. lia.
  - destruct s as [|c s]; [rewrite scan_nil; [constructor | done]|].
    rewrite scan_skip by done. apply IH. simpl. lia.
Qed.

(** Through the helper: a pattern the interface compiles as [re] does. *)
Lemma find_all_matches_compiled `{ReModule} pattern r text :
  compiles_to pattern r ->
  find_all_matches pattern text = Return (Re.findall r text).
Proof.
  intros (p & Hp & Hfind). unfold find_all_matches. by rewrite Hp, Hfind.
Qed.

Lemma known_patterns_compile :
  @compiles_to known_patterns "cat|dog" cat_or_dog
  /\ @compiles_to known_patterns "\d+" digits
  /\ @compiles_to known_patterns "(cat|dog)s?" cats_or_dogs.
Proof.
  repeat split; eexists; (split; [vm_compute; reflexivity | done]).
Qed.

End DemoFacts.

(** ** Stripping, and subjects that differ in letter case *)

Module CaseFacts.
Import Re ReFacts ScanFacts PatternFacts Shape Eliza ElizaFacts.

Lemma lstrip_blank_app l s : Str.blank l -> Str.lstrip (l ++ s) = Str.lstrip s.
Proof. induction 1 as [|c l Hc _ IH]; simpl; [done | by rewrite Hc]. Qed.

Lemma lstrip_blank l : Str.blank l -> Str.lstrip l = [].
Proof. intros Hl. rewrite <- (app_nil_r l). by rewrite lstrip_blank_app. Qed.

Lemma lstrip_app_blank s r :
  Str.blank r ->
  Str.lstrip (s ++ r) = match Str.lstrip s with [] => [] | t => t ++ r end.
Proof.
  intros Hr. induction s as [|c s IH]; simpl.
  - by apply lstrip_blank.
  - destruct (Char.whitespace c); [done|]. done.
Qed.

Lemma rstrip_app_blank s r : Str.blank r -> Str.rstrip (s ++ r) = Str.rstrip s.
Proof.
  intros Hr. unfold Str.rstrip. rewrite rev_app_distr.
  rewrite lstrip_blank_app; [done|]. unfold Str.blank. by apply Forall_rev.
Qed.

Lemma strip_padding l s r :
  Str.blank l -> Str.blank r -> Str.strip (l ++ s ++ r) = Str.strip s.
Proof.
  intros Hl Hr. unfold Str.strip. rewrite lstrip_blank_app by done.
  rewrite lstrip_app_blank by done.
  destruct (Str.lstrip s) as [|c t] eqn:Hs; [done|].
  by rewrite (rstrip_app_blank (c :: t)).
Qed.

Lemma lstrip_idem s : Str.lstrip (Str.lstrip s) = Str.lstrip s.
Proof.
  induction s as [|c s IH]; simpl; [done|].
  destruct (Char.whitespace c) eqn:Hc; [done|]. simpl. by rewrite Hc.
Qed.

Lemma respond_with_strip rules a b :
  Str.strip a = Str.strip b -> respond_with rules a = respond_with rules b.
Proof.
  intros Hab. induction rules as [|[pattern f] rules IH]; simpl; [done|].
  by rewrite Hab, IH.
Qed.






Lemma star_loop_fmap {A B} (h : A -> B) r fuel :
  (forall s g (k : @cont A),
     rmatch r s g (fun s' g' => h <$> k s' g') = h <$> rmatch r s g k) ->
  forall s g (k : @cont A),
    star_loop (rmatch r) fuel s g (fun s' g' => h <$> k s' g')
    = h <$> star_loop (rmatch r) fuel s g k.
Proof.
  intros Hbody. induction fuel as [|fuel IH]; intros s g k; simpl; [done|].
  rewrite (rmatch_ext r s g _ (fun s' g' => h <$>
    (if (length s' <? length s)%nat
     then star_loop (rmatch r) fuel s' g' k else None))).
  - rewrite Hbody. by destruct (rmatch r s g _).
  - intros s' g'. destruct (length s' <? length s)%nat; [apply IH | done].
Qed.

Lemma rmatch_fmap {A B} (h : A -> B) r :
  forall s g (k : @cont A),
    rmatch r s g (fun s' g' => h <$> k s' g') = h <$> rmatch r s g k.
Proof.
  induction r as [|p|r1 IH1 r2 IH2|r1 IH1 r2 IH2|r IH|n r IH];
    intros s g k; simpl.
  - done.
  - destruct s as [|c s]; [done|]. by destruct (p c).
  - rewrite <- IH1. apply rmatch_ext. intros s' g'. apply IH2.
  - rewrite IH1, IH2. by destruct (rmatch r1 s g k).
  - by apply star_loop_fmap.
  - apply (IH s g (fun s' g' => k s' (<[n:=take (length s - length s') s]> g'))).
Qed.

Lemma star_loop_map {A} f r fuel :
  (forall s g (k k' : @cont A),
     (forall s' g', k' (map f s') (map f <$> g') = k s' g') ->
     rmatch r (map f s) (map f <$> g) k' = rmatch r s g k) ->
  forall s g (k k' : @cont A),
    (forall s' g', k' (map f s') (map f <$> g') = k s' g') ->
    star_loop (rmatch r) fuel (map f s) (map f <$> g) k'
    = star_loop (rmatch r) fuel s g k.
Proof.
  intros Hbody. induction fuel as [|fuel IH]; intros s g k k' Hk; simpl.
  - apply Hk.
  - rewrite (Hbody s g (fun s' g' =>
      if (length s' <? length s)%nat
      then star_loop (rmatch r) fuel s' g' k else None)).
    + by rewrite Hk.
    + intros s' g'. rewrite !length_map.
      destruct (length s' <? length s)%nat; [by apply IH | done].
Qed.

Lemma rmatch_map {A} f r :
  respects f r ->
  forall s g (k k' : @cont A),
    (forall s' g', k' (map f s') (map f <$> g') = k s' g') ->
    rmatch r (map f s) (map f <$> g) k' = rmatch r s g k.
Proof.
  induction r as [|p|r1 IH1 r2 IH2|r1 IH1 r2 IH2|r IH|n r IH];
    simpl; intros Hr s g k k' Hk.
  - apply Hk.
  - destruct s as [|c s]; simpl; [done|]. rewrite Hr.
    destruct (p c); [apply Hk | done].
  - destruct Hr as [Hr1 Hr2]. apply IH1; [done|].
    intros s' g'. by apply IH2.
  - destruct Hr as [Hr1 Hr2].
    by rewrite (IH1 Hr1 s g k k' Hk), (IH2 Hr2 s g k k' Hk).
  - rewrite length_map. apply star_loop_map; [|done].
    intros. by apply IH.
  - apply IH; [done|]. intros s' g'. rewrite !length_map.
    rewrite <- fmap_take, <- fmap_insert. apply Hk.
Qed.

(** A pattern that cannot tell [c] from [f c] matches [map f s] as it
    matches [s], and captures the mapped text. *)
Lemma fullmatch_map f r s :
  respects f r ->
  fullmatch r (map f s)
  = (fun m : captures => (map f <$> m : captures)) <$> fullmatch r s.
Proof.
  intros Hr. unfold fullmatch.
  rewrite <- rmatch_fmap.
  rewrite <- (fmap_empty (M:=gmap nat) (map f)).
  apply rmatch_map; [done|].
  intros s' g'. unfold at_end. by destruct s'.
Qed.

Lemma lstrip_lower s : Str.lstrip (Str.lower s) = Str.lower (Str.lstrip s).
Proof.
  unfold Str.lower. induction s as [|c s IH]; simpl; [done|].
  rewrite CharFacts.tolower_whitespace.
  by destruct (Char.whitespace c).
Qed.

Lemma strip_lower s : Str.strip (Str.lower s) = Str.lower (Str.strip s).
Proof.
  unfold Str.strip, Str.rstrip. rewrite lstrip_lower.
  unfold Str.lower at 1. rewrite <- map_rev.
  change (map Char.tolower (rev (Str.lstrip s)))
    with (Str.lower (rev (Str.lstrip s))).
  rewrite lstrip_lower. unfold Str.lower. by rewrite map_rev.
Qed.

Lemma lower_idempotent s : Str.lower (Str.lower s) = Str.lower s.
Proof.
  unfold Str.lower. rewrite map_map. apply map_ext.
  apply CharFacts.tolower_idempotent.
Qed.

Lemma tolower_LF c : Char.same Char.LF (Char.tolower c) = Char.same Char.LF c.
Proof. CharFacts.by_cases c. Qed.

Lemma respects_text p : respects Char.tolower (text p).
Proof.
  induction p as [|a p IH]; [done|].
  change (text (a :: p)) with (Seq (lit_ignorecase a) (text p)).
  unfold lit_ignorecase. cbn [respects]. split; [|done].
  intros c. by rewrite CharFacts.tolower_idempotent.
Qed.

Lemma respects_some_text : respects Char.tolower some_text.
Proof.
  unfold some_text, Plus, dot. cbn [respects].
  split; intros c; by rewrite tolower_LF.
Qed.

Lemma respects_any_text : respects Char.tolower any_text.
Proof.
  unfold any_text, dot. cbn [respects]. intros c; by rewrite tolower_LF.
Qed.

Lemma respects_opt_qmark : respects Char.tolower opt_qmark.
Proof.
  unfold opt_qmark, Opt, lit_ignorecase. cbn [respects].
  split; [|done]. intros c. by rewrite CharFacts.tolower_idempotent.
Qed.

Lemma patterns_respect_case :
  Forall (fun r : rule => respects Char.tolower r.1) patterns.
Proof.
  unfold patterns.
  repeat (constructor;
    [cbn [fst respects];
     eauto using respects_text, respects_some_text, respects_any_text,
       respects_opt_qmark|]).
  constructor.
Qed.

Lemma reflect_lower fragment : reflect (Str.lower fragment) = reflect fragment.
Proof. unfold reflect. by rewrite lower_idempotent. Qed.

Lemma reflect_group_lower n (m : captures) :
  reflect_group n (Str.lower <$> m) = reflect_group n m.
Proof.
  unfold reflect_group, group. rewrite lookup_fmap.
  destruct (m !! n); simpl; [by rewrite reflect_lower | done].
Qed.

Lemma responses_ignore_case :
  Forall (fun r : rule => forall m : captures, r.2 (Str.lower <$> m) = r.2 m)
    patterns.
Proof.
  unfold patterns.
  repeat (constructor; [intros m; cbn [snd]; by rewrite ?reflect_group_lower|]).
  constructor.
Qed.

Lemma respond_with_lower rules user_input :
  Forall (fun r : rule => respects Char.tolower r.1) rules ->
  Forall (fun r : rule => forall m : captures, r.2 (Str.lower <$> m) = r.2 m)
    rules ->
  respond_with rules (Str.lower user_input) = respond_with rules user_input.
Proof.
  induction rules as [|[pattern f] rules IH]; intros Hp Hf; simpl; [done|].
  apply Forall_cons in Hp as [Hp Hps]. apply Forall_cons in Hf as [Hf Hfs].
  rewrite strip_lower. unfold Str.lower at 1.
  rewrite fullmatch_map by done.
  destruct (fullmatch pattern (Str.strip user_input)) as [m|]; simpl.
  - apply Hf.
  - by apply IH.
Qed.

Lemma blank_spaces n : Str.blank (replicate n Char.SPACE).
Proof. induction n; by constructor. Qed.

End CaseFacts.

(** ** The rule table *)

Module ReplyFacts.
Import Re ReFacts ScanFacts PatternFacts Shape Eliza ElizaFacts CaseFacts.

(** After a literal prefix, the greedy group takes the whole rest of a line. *)
Lemma greedy_group_to_end p t :
  t <> [] -> Char.LF ∉ t ->
  fullmatch (Seq (text p) some_text) (p ++ t) = Some (<[1 := t]> ∅).
Proof.
  intros Hne Hnl. unfold fullmatch.
  rewrite rmatch_seq, text_prefix.
  unfold some_text, Plus. rewrite rmatch_group, rmatch_seq.
  destruct t as [|c t]; [done|].
  apply not_elem_of_cons in Hnl as [Hc Hnl].
  unfold dot at 1. rewrite rmatch_chr_accept
    by (apply negb_true_iff, Ascii.eqb_neq; congruence).
  unfold dot. rewrite rmatch_star.
  apply star_loop_chr_all; [done | by apply dot_accepts |].
  simpl. by rewrite take_ge.
Qed.

Section Table.
Variables (y : str) (d : ascii).
Hypothesis Hd : Char.whitespace d = false.
Hypothesis Hnl : Char.LF ∉ y ++ [d].

Local Abbreviation x := (y ++ [d]).

Lemma fragment_not_empty : x <> [].
Proof. by destruct y. Qed.

Lemma strip_rule (c : ascii) (p : str) :
  Char.whitespace c = false -> Str.strip ((c :: p) ++ x) = (c :: p) ++ x.
Proof.
  intros Hc. rewrite app_assoc. simpl.
  by apply StrFacts.strip_tight.
Qed.

Ltac fire :=
  unfold get_eliza_response, patterns; cbn [respond_with];
  match goal with
  | |- context [Str.strip (?q ++ x)] =>
      let q' := eval cbv in q in
      lazymatch q' with
      | ?c :: ?p =>
          replace (Str.strip (q ++ x)) with (q ++ x)
            by (symmetry; exact (strip_rule c p eq_refl))
      end
  end;
  repeat
    match goal with
    | |- context [fullmatch (Seq (text ?p) ?r) (?q ++ x)] =>
        lazymatch p with
        | q => fail
        | _ => change (fullmatch (Seq (text p) r) (q ++ x)) with (@None captures)
        end
    end;
  first [ rewrite greedy_group_to_end by (exact fragment_not_empty || exact Hnl)
        | rewrite greedy_group_takes_all by (exact fragment_not_empty || exact Hnl) ];
  by rewrite reflect_group_insert.

Lemma respond_i_need :
  get_eliza_response ("I need " ++ x)
  = Return ("Why do you need " ++ reflect x ++ "?").
Proof. fire. Qed.

Lemma respond_why_dont_you_any :
  get_eliza_response ("Why don't you " ++ x)
  = Return ("Do you really think I don't " ++ reflect x ++ "?").
Proof. fire. Qed.

Lemma respond_why_cant_i_any :
  get_eliza_response ("Why can't I " ++ x)
  = Return ("Maybe you could " ++ reflect x ++ " if you tried.").
Proof. fire. Qed.

Lemma respond_i_cant :
  get_eliza_response ("I can't " ++ x)
  = Return ("What makes you think you can't " ++ reflect x ++ "?").
Proof. fire. Qed.

Lemma respond_i_am :
  get_eliza_response ("I am " ++ x)
  = Return ("How long have you been " ++ reflect x ++ "?").
Proof. fire. Qed.

Lemma respond_im :
  get_eliza_response ("I'm " ++ x)
  = Return ("Why are you " ++ reflect x ++ "?").
Proof. fire. Qed.

Lemma respond_i_feel :
  get_eliza_response ("I feel " ++ x)
  = Return ("Tell me more about feeling " ++ reflect x ++ ".").
Proof. fire. Qed.

End Table.

End ReplyFacts.

(** ** Reflection *)

Module ReflectFacts.
Import Re ReFacts Shape Eliza ElizaFacts CaseFacts.

Lemma split_from_app_blank r :
  Str.blank r ->
  forall s acc, Str.split_from acc (s ++ r) = Str.split_from acc s.
Proof.
  intros Hr. assert (forall acc, Str.split_from acc r = Str.split_from acc []) as Hbase.
  { induction Hr as [|c r Hc _ IH]; intros acc; [done|]. simpl. rewrite Hc.
    rewrite (IH []). by destruct acc. }
  induction s as [|c s IH]; intros acc; [apply Hbase|].
  simpl. destruct (Char.whitespace c); [|apply IH].
  rewrite IH. by destruct acc.
Qed.

Lemma split_padding l s r :
  Str.blank l -> Str.blank r -> Str.split (l ++ s ++ r) = Str.split s.
Proof.
  intros Hl Hr. unfold Str.split.
  rewrite StrFacts.split_from_blank by done. by apply split_from_app_blank.
Qed.

Lemma split_from_acc acc s : acc <> [] -> Str.split_from acc s <> [].
Proof.
  revert acc. induction s as [|c s IH]; intros acc Hacc; simpl.
  - by destruct acc.
  - destruct (Char.whitespace c); [by destruct acc|].
    apply IH. by destruct acc.
Qed.

Lemma split_nil s : Str.split s = [] <-> Str.blank s.
Proof.
  unfold Str.split. induction s as [|c s IH]; simpl.
  - split; [constructor | done].
  - destruct (Char.whitespace c) eqn:Hc.
    + rewrite IH. split; [by constructor | by intros [_ ?]%Forall_cons].
    + split.
      * intros Hs. by apply split_from_acc in Hs.
      * intros [Hc' _]%Forall_cons. congruence.
Qed.

Lemma blank_lower s : Str.blank (Str.lower s) <-> Str.blank s.
Proof.
  unfold Str.blank, Str.lower. rewrite Forall_fmap.
  apply Forall_iff. intros c. simpl. by rewrite CharFacts.tolower_whitespace.
Qed.

Lemma reflections_values w v : reflections !! w = Some v -> v <> [].
Proof.
  intros Hw. apply elem_of_list_to_map_2 in Hw.
  repeat (apply elem_of_cons in Hw as [Hw|Hw];
          [injection Hw as _ ->; discriminate|]).
  by apply elem_of_nil in Hw.
Qed.

Lemma reflect_token_not_empty w : w <> [] -> reflect_token w <> [].
Proof.
  intros Hw. unfold reflect_token.
  destruct (reflections !! w) as [v|] eqn:Hv; simpl; [|done].
  by apply reflections_values in Hv.
Qed.

Lemma join_nil sep ws :
  Forall (fun w : str => w <> []) ws -> Str.join sep ws = [] -> ws = [].
Proof.
  intros Hws. destruct Hws as [|w ws Hw _]; [done|]. simpl.
  destruct ws; [done|]. intros Hj. by apply app_eq_nil in Hj as [-> _].
Qed.

Lemma runs_words s ws : Str.runs s ws -> Forall Str.word ws.
Proof. induction 1; by constructor. Qed.

Lemma split_words s : Forall Str.word (Str.split s).
Proof. apply (runs_words s), StrFacts.split_runs. Qed.

Lemma reflect_nil fragment : reflect fragment = [] <-> Str.blank fragment.
Proof.
  unfold reflect. rewrite <- blank_lower, <- split_nil. split.
  - intros Hj. apply join_nil in Hj; [by apply fmap_nil_inv in Hj|].
    apply Forall_fmap. eapply Forall_impl; [apply split_words|].
    intros w [Hw _]. by apply reflect_token_not_empty.
  - by intros ->.
Qed.

Lemma reflect_padding l fragment r :
  Str.blank l -> Str.blank r -> reflect (l ++ fragment ++ r) = reflect fragment.
Proof.
  intros Hl Hr. unfold reflect, Str.lower. rewrite !map_app.
  rewrite split_padding; [done|by apply blank_lower..].
Qed.

End ReflectFacts.

(** ** The interactive loop *)

Module ChatFacts.
Import Re ReFacts Eliza ElizaFacts CaseFacts Chatbot.



End ChatFacts.

(** ** Vocabulary *)

Module VocabularyFacts.
Import Re Tokenization.

Lemma length_remove_dups `{EqDecision A} (l : list A) :
  length (remove_dups l) <= length l.
Proof.
  induction l as [|x l IH]; simpl; [done|].
  destruct (decide_rel elem_of x l); simpl; lia.
Qed.

Lemma remove_dups_same_length `{EqDecision A} (l : list A) :
  length (remove_dups l) = length l <-> NoDup l.
Proof.
  induction l as [|x l IH]; simpl.
  - split; [constructor | done].
  - pose proof (length_remove_dups l).
    destruct (decide_rel elem_of x l) as [Hin|Hout]; simpl.
    + split; [lia|]. intros Hnd. by apply NoDup_cons in Hnd as [? _].
    + rewrite NoDup_cons. split.
      * intros Hlen. split; [done|]. apply IH. lia.
      * intros [_ Hnd]. f_equal. by apply IH.
Qed.

Lemma vocabulary_size (tokens : list item) :
  size (list_to_set tokens : gset item) = length (remove_dups tokens).
Proof.
  rewrite <- (size_list_to_set (C:=gset item)) by apply NoDup_remove_dups.
  f_equal. apply set_eq. intros x.
  by rewrite !elem_of_list_to_set, elem_of_remove_dups.
Qed.

(** Tokens that are all the same make a vocabulary of at most one. *)
Lemma vocabulary_of_one (x : item) (tokens : list item) :
  Forall (fun token => token = x) tokens ->
  size (list_to_set tokens : gset item) <= 1.
Proof.
  intros Hall. rewrite <- (size_singleton (C:=gset item) x).
  apply subseteq_size. intros t Ht. apply elem_of_list_to_set in Ht.
  rewrite Forall_forall in Hall. apply elem_of_singleton. by apply Hall.
Qed.

End VocabularyFacts.

(** ** The tokenizer pattern *)

Module TokenFacts.
Import Re ReFacts ScanFacts PatternFacts Shape Tokenization.


Lemma scan_length r s : consumes r = true -> length (scan r s) <= length s.
Proof.
  intros Hc. induction s as [s IH] using str_length_ind.
  rewrite scan_unfold by done.
  destruct (search r false s) as [[[whole s'] g]|] eqn:Hs; [|simpl; lia].
  apply search_consumes in Hs as [_ Hlt]; [|done].
  simpl. specialize (IH s' Hlt). lia.
Qed.

(** A consuming pattern that rejects [c] matches nothing that starts with [c]. *)
Lemma match_here_rejects r c s :
  consumes r = true -> rejects c r = true ->
  match_here r false (c :: s) = None.
Proof.
  intros Hc Hr. destruct (match_here r false (c :: s)) as [[s' g]|] eqn:Hm; [|done].
  apply match_here_run in Hm as [Hrun _].
  pose proof (consumes_shorter _ _ _ _ _ Hrun Hc) as Hlt.
  destruct (matches_consumes c _ _ _ _ _ Hrun Hr) as (u & Hu & Hout).
  destruct u as [|c' u]; simpl in Hu.
  - subst s'. lia.
  - injection Hu as <- _. destruct Hout. left.
Qed.

Lemma pattern_rejects_whitespace c :
  Char.whitespace c = true -> rejects c pattern = true.
Proof. CharFacts.by_cases c. Qed.

Lemma scan_blank s : Str.blank s -> scan pattern s = [].
Proof.
  induction 1 as [|c s Hc _ IH]; [by apply scan_nil|].
  rewrite scan_skip; [done..|].
  apply match_here_rejects; [done|]. by apply pattern_rejects_whitespace.
Qed.

Lemma needs_sound c r s g s' g' :
  matches r s g s' g' -> needs c r -> exists u, s = u ++ s' /\ c ∈ u.
Proof.
  induction 1 as [s g|p c' s g Hp|r1 r2 s g s1 g1 s2 g2 H1 IH1 H2 IH2
                 |r1 r2 s g s' g' _ IH|r1 r2 s g s' g' _ IH
                 |r s g|r s g s1 g1 s2 g2 _ IH1 _ _ IH2|n r s g s' g' _ IH];
    simpl; intros Hn; try done.
  - exists [c']. split; [done|]. rewrite (Hn c' Hp). left.
  - destruct (matches_split _ _ _ _ _ H1) as [u1 Hu1].
    destruct (matches_split _ _ _ _ _ H2) as [u2 Hu2].
    exists (u1 ++ u2). split; [by rewrite Hu1, Hu2, app_assoc|].
    rewrite elem_of_app. destruct Hn as [Hn|Hn].
    + left. destruct (IH1 Hn) as (u & Hu & Hin).
      rewrite Hu1 in Hu. by apply app_inv_tail in Hu as ->.
    + right. destruct (IH2 Hn) as (u & Hu & Hin).
      rewrite Hu2 in Hu. by apply app_inv_tail in Hu as ->.
  - apply IH, Hn.
  - apply IH, Hn.
  - by apply IH.
Qed.

Lemma group_needs_sound c n r s g s' g' :
  matches r s g s' g' -> group_needs c n r ->
  forall w, g' !! n = Some w -> g !! n = Some w \/ c ∈ s.
Proof.
  induction 1 as [s g|p c' s g Hp|r1 r2 s g s1 g1 s2 g2 H1 IH1 H2 IH2
                 |r1 r2 s g s' g' _ IH|r1 r2 s g s' g' _ IH
                 |r s g|r s g s1 g1 s2 g2 H1 IH1 _ _ IH2|m r s g s' g' Hm IH];
    simpl; intros Hn w Hw; auto.
  - destruct Hn as [Hn1 Hn2].
    destruct (matches_split _ _ _ _ _ H1) as [u ->].
    destruct (IH2 Hn2 w Hw) as [Hg|Hin].
    + destruct (IH1 Hn1 w Hg); auto.
    + right. rewrite elem_of_app. by right.
  - apply IH; [apply Hn | done].
  - apply IH; [apply Hn | done].
  - destruct (matches_split _ _ _ _ _ H1) as [u ->].
    destruct (IH2 Hn w Hw) as [Hg|Hin].
    + destruct (IH1 Hn w Hg); auto.
    + right. rewrite elem_of_app. by right.
  - destruct Hn as [Hbody Hn]. rewrite lookup_insert in Hw.
    case_decide as Heq.
    + right.
      destruct (needs_sound _ _ _ _ _ _ Hm (Hbody Heq)) as (u & -> & Hin).
      rewrite elem_of_app. by left.
    + by apply IH.
Qed.

(** Every match of the scan was found by a match attempt somewhere in
    the subject. *)
Lemma scan_elements r s :
  consumes r = true ->
  Forall (fun m : str * captures =>
            exists before s', match_here r false (m.1 ++ s') = Some (s', m.2)
                              /\ s = before ++ m.1 ++ s')
    (scan r s).
Proof.
  intros Hc. induction s as [s IH] using str_length_ind.
  rewrite scan_unfold by done.
  destruct (search r false s) as [[[whole s'] g]|] eqn:Hs; [|constructor].
  destruct (search_consumes _ _ _ _ _ Hc Hs) as [_ Hlt].
  destruct (search_leftmost _ _ _ _ _ Hs) as (gap & -> & Hm & _).
  constructor.
  - by exists gap, s'.
  - eapply Forall_impl; [apply (IH s' Hlt)|].
    intros [w g1] (before & t & Hm1 & ->). simpl in *.
    exists (gap ++ whole ++ before), t. split; [done|].
    by rewrite <- !app_assoc.
Qed.

Lemma pattern_groups :
  group_needs "." 1 pattern /\ group_needs "-" 2 pattern
  /\ group_needs "." 3 pattern.
Proof.
  assert (forall c c', Char.same c c' = true -> c' = c) as Hsame.
  { intros c c' Hcc. unfold Char.same in Hcc. by apply Ascii.eqb_eq in Hcc. }
  unfold pattern, Plus, Opt, lit. cbn [group_needs needs].
  repeat split; try done; intros _; eauto.
Qed.

Lemma empty_triples text :
  "."%char ∉ text -> "-"%char ∉ text ->
  Forall (fun token => token = Tuple [ []; []; [] ]) (tokenize_text text).
Proof.
  intros Hdot Hdash. unfold tokenize_text, regexp_tokenize, findall.
  apply Forall_fmap. eapply Forall_impl; [by apply scan_elements|].
  intros [whole g] (before & s' & Hm & ->). simpl in *.
  apply match_here_run in Hm as [Hrun _].
  destruct pattern_groups as (H1 & H2 & H3).
  assert (forall c n, group_needs c n pattern -> c ∉ before ++ whole ++ s' ->
            g !! n = None) as Hnone.
  { intros c n Hn Hout. destruct (g !! n) as [w|] eqn:Hw; [|done].
    destruct (group_needs_sound _ _ _ _ _ _ _ Hrun Hn w Hw) as [Hg|Hin];
      [by rewrite lookup_empty in Hg|].
    destruct Hout. rewrite !elem_of_app. rewrite elem_of_app in Hin. tauto. }
  unfold item_of. change (ngroups pattern) with 3. simpl.
  by rewrite (Hnone _ 1 H1 Hdot), (Hnone _ 2 H2 Hdash), (Hnone _ 3 H3 Hdot).
Qed.

End TokenFacts.

(** ** Aliases and wildcards *)

Module AliasFacts.
Import Re ReFacts ScanFacts PatternFacts TokenFacts Shape Aliases.

Lemma search_ext r1 r2 s :
  (forall t, match_here r1 false t = match_here r2 false t) ->
  search r1 false s = search r2 false s.
Proof.
  intros Hext. induction s as [|c s IH]; simpl; rewrite Hext; [done|].
  by rewrite IH.
Qed.

Lemma scan_ext r1 r2 s :
  consumes r1 = true -> consumes r2 = true ->
  (forall t, match_here r1 false t = match_here r2 false t) ->
  scan r1 s = scan r2 s.
Proof.
  intros H1 H2 Hext. induction s as [s IH] using str_length_ind.
  rewrite (scan_unfold r1), (scan_unfold r2) by done.
  rewrite (search_ext r1 r2) by done.
  destruct (search r2 false s) as [[[whole s'] g]|] eqn:Hs; [|done].
  apply search_consumes in Hs as [_ Hlt]; [|done].
  by rewrite IH.
Qed.

Lemma match_here_a_word_plain s :
  match_here a_word_plain false s
  = match s with
    | c :: t => if Char.same "a" c then Some (after Char.isword t, ∅) else None
    | [] => None
    end.
Proof.
  unfold match_here, a_word_plain, lit. rewrite rmatch_seq.
  destruct s as [|c t]; [done|]. cbn [rmatch].
  destruct (Char.same "a" c); [|done].
  by apply star_loop_chr_greedy.
Qed.

Lemma rmatch_alt {A} r1 r2 s g (k : @cont A) :
  rmatch (Alt r1 r2) s g k
  = match rmatch r1 s g k with
    | Some a => Some a
    | None => rmatch r2 s g k
    end.
Proof. reflexivity. Qed.

Lemma rmatch_chr_reject {A} p c s g (k : @cont A) :
  p c = false -> rmatch (Chr p) (c :: s) g k = None.
Proof. intros Hp. simpl. by rewrite Hp. Qed.

Lemma match_here_a_word s :
  match_here a_word false s = match_here a_word_plain false s.
Proof.
  rewrite match_here_a_word_plain.
  unfold match_here, a_word, lit, Opt. rewrite rmatch_seq.
  destruct s as [|c t]; [done|].
  destruct (Char.same "a" c) eqn:Ha; [|by rewrite rmatch_chr_reject].
  rewrite rmatch_chr_accept, rmatch_seq, rmatch_alt by done.
  change (rmatch Eps t ∅ ?k) with (k t ∅). cbv beta.
  assert (forall u, rmatch (Star (Chr Char.isword)) u ∅
            (fun s' g' => if false && (length s' =? length (c :: t))%nat
                          then None else Some (s', g'))
          = Some (after Char.isword u, ∅)) as Hstar.
  { intros u. rewrite rmatch_star. by apply star_loop_chr_greedy. }
  destruct t as [|n t]; [done|].
  destruct (Char.same "n" n) eqn:Hn.
  - rewrite rmatch_chr_accept by done. rewrite Hstar.
    apply Ascii.eqb_eq in Hn as <-. done.
  - rewrite rmatch_chr_reject by done. apply Hstar.
Qed.

Lemma findall_a_word s : Re.findall a_word s = Re.findall a_word_plain s.
Proof.
  unfold Re.findall. change (ngroups a_word) with 0.
  change (ngroups a_word_plain) with 0.
  by rewrite (scan_ext a_word a_word_plain) by (done || apply match_here_a_word).
Qed.

(** Each match is the letter a and the whole run of word characters
    that follows it. *)
Lemma findall_a_word_items s :
  Forall (fun it => exists before w behind,
            it = Text ("a"%char :: w)
            /\ s = before ++ "a"%char :: w ++ behind
            /\ Forall (fun c => Char.isword c = true) w
            /\ match behind with [] => True | c :: _ => Char.isword c = false end)
    (Re.findall a_word s).
Proof.
  unfold Re.findall. change (ngroups a_word) with 0.
  apply Forall_fmap. eapply Forall_impl; [by apply scan_elements|].
  intros [whole g] (before & s' & Hm & ->). simpl in *.
  rewrite match_here_a_word, match_here_a_word_plain in Hm.
  destruct (whole ++ s') as [|c t] eqn:Ht; [done|].
  destruct (Char.same "a" c) eqn:Ha; [|done].
  apply Ascii.eqb_eq in Ha as <-. injection Hm as Hs' <-.
  assert (whole = "a"%char :: while Char.isword t) as ->.
  { apply (app_inv_tail s'). rewrite Ht, <- Hs'. simpl.
    by rewrite while_after. }
  exists before, (while Char.isword t), s'. unfold item_of. simpl.
  repeat split.
  - by rewrite <- Hs', while_after.
  - apply while_all.
  - rewrite <- Hs'. apply after_head.
Qed.

End AliasFacts.

(** * Further theorems *)

Import ScanFacts PatternFacts Shape CaseFacts ReplyFacts ReflectFacts.
Import Chatbot ChatFacts VocabularyFacts TokenFacts.
Import Subst SubstFacts Demos DemoFacts Aliases AliasFacts.

(** ** ELIZA: the responder *)

(** X1.  [get_eliza_response] does not see whitespace around its input:
    padding the input on either side with whitespace characters leaves the
    reply as it is.  The [strip] that [eliza_chatbot] applies before the
    call therefore changes no reply. *)
Theorem get_eliza_response_ignores_padding (l user_input r : str) :
  Str.blank l -> Str.blank r ->
  get_eliza_response (l ++ user_input ++ r) = get_eliza_response user_input.
Proof. intros Hl Hr. apply respond_with_strip. by apply strip_padding. Qed.

(** The same at an input padded with spaces. *)
Lemma get_eliza_response_ignores_padding_witness :
  Str.blank "  " /\ Str.blank " "
  /\ get_eliza_response ("  " ++ "I am sad" ++ " ")
     = Return ("How long have you been sad?" : str).
Proof.
  assert (Str.blank "  ") as Hl by apply (blank_spaces 2).
  assert (Str.blank " ") as Hr by apply (blank_spaces 1).
  split; [done|]. split; [done|].
  rewrite (get_eliza_response_ignores_padding "  " "I am sad" " " Hl Hr).
  vm_compute. reflexivity.
Defined.

(** X2.  [get_eliza_response] does not see letter case: the lower-cased
    input gets the very reply of the input.  The patterns are compiled
    with [re.IGNORECASE], the dot accepts a letter in either case, and
    [reflect] lower-cases what the group captured. *)
Theorem get_eliza_response_ignores_case (user_input : str) :
  get_eliza_response (Str.lower user_input) = get_eliza_response user_input.
Proof.
  apply respond_with_lower;
    [apply patterns_respect_case | apply responses_ignore_case].
Qed.

(** X3.  The seven worded rules.  For a fragment that holds no line feed
    and ends in a character that is not whitespace, each of the seven
    prefixes followed by the fragment gets the reply of its own rule, built
    around [reflect fragment]; in particular an input that starts with
    "Why can't I " is answered by the third rule and never by the rule for
    "I can't ". *)
Theorem reply_table (fragment : str) (d : ascii) :
  last fragment = Some d -> Char.whitespace d = false ->
  Char.LF ∉ fragment ->
  get_eliza_response ("I need " ++ fragment)
  = Return ("Why do you need " ++ reflect fragment ++ "?")
  /\ get_eliza_response ("Why don't you " ++ fragment)
     = Return ("Do you really think I don't " ++ reflect fragment ++ "?")
  /\ get_eliza_response ("Why can't I " ++ fragment)
     = Return ("Maybe you could " ++ reflect fragment ++ " if you tried.")
  /\ get_eliza_response ("I can't " ++ fragment)
     = Return ("What makes you think you can't " ++ reflect fragment ++ "?")
  /\ get_eliza_response ("I am " ++ fragment)
     = Return ("How long have you been " ++ reflect fragment ++ "?")
  /\ get_eliza_response ("I'm " ++ fragment)
     = Return ("Why are you " ++ reflect fragment ++ "?")
  /\ get_eliza_response ("I feel " ++ fragment)
     = Return ("Tell me more about feeling " ++ reflect fragment ++ ".").
Proof.
  intros Hlast Hd Hnl. apply last_Some in Hlast as [y ->].
  repeat split;
    [ by apply respond_i_need | by apply respond_why_dont_you_any
    | by apply respond_why_cant_i_any | by apply respond_i_cant
    | by apply respond_i_am | by apply respond_im | by apply respond_i_feel ].
Qed.

(** The same at the fragment "my age", for the seventh rule. *)
Lemma reply_table_witness :
  get_eliza_response "I feel my age"
  = Return ("Tell me more about feeling your age." : str).
Proof.
  assert (Char.LF ∉ ("my age" : str)) as Hnl.
  { intros Hin. repeat (apply elem_of_cons in Hin as [Hin|Hin]; [discriminate|]).
    by apply elem_of_nil in Hin. }
  destruct (reply_table "my age" "e" eq_refl eq_refl Hnl)
    as (_ & _ & _ & _ & _ & _ & H).
  exact H.
Defined.

(** ** ELIZA: reflection of a fragment *)

(** X4.  [reflect] returns the empty string for the fragments made of
    whitespace only (the empty fragment among them), and for no other. *)
Theorem reflect_empty_iff_blank (fragment : str) :
  reflect fragment = [] <-> Str.blank fragment.
Proof. apply reflect_nil. Qed.

(** X5.  [reflect] sees neither letter case nor whitespace around the
    fragment: the lower-cased fragment, padded with whitespace on either
    side, reflects to what the fragment reflects to. *)
Theorem reflect_ignores_case_and_padding (l fragment r : str) :
  Str.blank l -> Str.blank r ->
  reflect (l ++ Str.lower fragment ++ r) = reflect fragment.
Proof.
  intros Hl Hr. by rewrite reflect_padding, reflect_lower.
Qed.

(** The same at a fragment with capitals. *)
Lemma reflect_ignores_case_and_padding_witness :
  Str.blank " " /\ Str.blank "  "
  /\ reflect (" " ++ Str.lower "My Own" ++ "  ") = reflect "My Own".
Proof.
  assert (Str.blank " ") as Hl by apply (blank_spaces 1).
  assert (Str.blank "  ") as Hr by apply (blank_spaces 2).
  split; [done|]. split; [done|].
  exact (reflect_ignores_case_and_padding " " "My Own" "  " Hl Hr).
Defined.

(** ** ELIZA: the interactive loop *)



(** ** Vocabulary and tokens *)

(** X7.  [compute_vocabulary] returns the set of the tokens and its
    size: a token is in the vocabulary exactly when it is in the list, the
    size is the number of distinct tokens, at most the number of tokens,
    and equal to it exactly when no token occurs twice. *)
Theorem compute_vocabulary_counts_distinct (tokens : list item) :
  (compute_vocabulary tokens).1 = size (compute_vocabulary tokens).2
  /\ (forall token, token ∈ (compute_vocabulary tokens).2 <-> token ∈ tokens)
  /\ (compute_vocabulary tokens).1 = length (remove_dups tokens)
  /\ (compute_vocabulary tokens).1 <= length tokens
  /\ ((compute_vocabulary tokens).1 = length tokens <-> NoDup tokens).
Proof.
  unfold compute_vocabulary. cbn [fst snd].
  split; [done|]. split; [intros token; apply elem_of_list_to_set|].
  rewrite vocabulary_size.
  split; [done|]. split; [apply length_remove_dups|].
  apply remove_dups_same_length.
Qed.

(** X8.  On every text, each token [tokenize_text] returns is a triple
    of strings, the three groups of the pattern, never a string; and there
    are at most as many tokens as the text has characters. *)
Theorem tokenize_text_returns_triples (text : str) :
  Forall (fun token => exists a b c : str, token = Tuple [a; b; c])
    (tokenize_text text)
  /\ length (tokenize_text text) <= length text.
Proof.
  unfold tokenize_text, regexp_tokenize, Re.findall. split.
  - apply Forall_fmap, Forall_forall. intros [whole g] _.
    unfold item_of. change (ngroups pattern) with 3. simpl. eauto.
  - rewrite List.length_map. by apply scan_length.
Qed.

(** X9.  A text of whitespace only has no tokens. *)
Theorem tokenize_text_blank (text : str) :
  Str.blank text -> tokenize_text text = [].
Proof.
  intros Hb. unfold tokenize_text, regexp_tokenize, Re.findall.
  by rewrite scan_blank.
Qed.

(** The same at three spaces. *)
Lemma tokenize_text_blank_witness :
  Str.blank "   " /\ tokenize_text "   " = [].
Proof.
  assert (Str.blank "   ") as Hb by apply (blank_spaces 3).
  split; [done|]. exact (tokenize_text_blank "   " Hb).
Defined.

(** X10.  On a text without a full stop and without a hyphen every token
    is the triple of three empty strings: the groups capture only text
    that holds one of the two characters.  The vocabulary
    [compute_vocabulary] builds from these tokens has at most one
    element, however many different words the text has. *)
Theorem tokenize_text_empty_triples (text : str) :
  "."%char ∉ text -> "-"%char ∉ text ->
  Forall (fun token => token = Tuple [ []; []; [] ]) (tokenize_text text)
  /\ (compute_vocabulary (tokenize_text text)).1 <= 1.
Proof.
  intros Hdot Hdash. pose proof (empty_triples text Hdot Hdash) as Hall.
  split; [done|]. by apply (vocabulary_of_one (Tuple [ []; []; [] ])).
Qed.

(** The same at a text of four words. *)
Lemma tokenize_text_empty_triples_witness :
  tokenize_text "We saw 3 cats"
  = [ Tuple [ []; []; [] ]; Tuple [ []; []; [] ];
      Tuple [ []; []; [] ]; Tuple [ []; []; [] ] ]
  /\ (compute_vocabulary (tokenize_text "We saw 3 cats")).1 <= 1.
Proof.
  assert ("."%char ∉ ("We saw 3 cats" : str)) as Hdot.
  { intros Hin. repeat (apply elem_of_cons in Hin as [Hin|Hin]; [discriminate|]).
    by apply elem_of_nil in Hin. }
  assert ("-"%char ∉ ("We saw 3 cats" : str)) as Hdash.
  { intros Hin. repeat (apply elem_of_cons in Hin as [Hin|Hin]; [discriminate|]).
    by apply elem_of_nil in Hin. }
  destruct (tokenize_text_empty_triples "We saw 3 cats" Hdot Hdash) as [_ H].
  split; [vm_compute; reflexivity | exact H].
Defined.

(** ** The analysis pipeline *)

(** X11.  On a text that is not empty [text_analysis_pipeline] prints
    four lines and returns: the number of tokens, the size of the
    vocabulary, the vocabulary, and the estimate of Heaps' law for the
    number of tokens with the default parameters.  The vocabulary size is
    at most the number of tokens, which is at most the length of the
    text. *)
Theorem pipeline_report (text : str) :
  text <> [] ->
  exists n v vocabulary,
    text_analysis_pipeline text
    = ([ NumberOfTokens n; VocabularySize v; VocabularySet vocabulary;
         EstimatedVocabularySize (heaps_law_estimation n default_beta default_k) ],
       Return tt)
    /\ n = length (tokenize_text text)
    /\ v = size vocabulary
    /\ v <= n <= length text.
Proof.
  intros Hne. destruct text as [|c text]; [done|].
  eexists _, _, _. split; [reflexivity|]. split; [done|]. split; [done|].
  rewrite vocabulary_size. split; [apply length_remove_dups|].
  unfold tokenize_text, regexp_tokenize, Re.findall.
  rewrite List.length_map. by apply scan_length.
Qed.

(** The same at the sample sentence. *)
Lemma pipeline_report_witness :
  exists n v vocabulary,
    text_analysis_pipeline example_text
    = ([ NumberOfTokens n; VocabularySize v; VocabularySet vocabulary;
         EstimatedVocabularySize (heaps_law_estimation n default_beta default_k) ],
       Return tt)
    /\ n = length (tokenize_text example_text)
    /\ v = size vocabulary
    /\ v <= n <= length example_text.
Proof.
  apply (pipeline_report example_text). discriminate.
Defined.

(** ** Substitutions *)

(** X12.  [add_angle_brackets_around_numbers] cuts the text into maximal
    runs of digits and single other characters, and returns it with each
    run of digits between angle brackets and every other character in
    place. *)
Theorem add_angle_brackets_wraps_each_number (text : str) :
  exists parts,
    text = concat (map part_text parts)
    /\ add_angle_brackets_around_numbers text
       = concat (map part_bracketed parts)
    /\ Forall proper_part parts
    /\ separated parts.
Proof. apply bracket_parts. Qed.

(** X13.  [add_angle_brackets_around_numbers] adds two characters for
    each maximal run of digits, and returns the text unchanged exactly when
    the text has no digit. *)
Theorem add_angle_brackets_length (text : str) :
  length (add_angle_brackets_around_numbers text)
  = length text + 2 * length (chunks Char.isdigit text)
  /\ (add_angle_brackets_around_numbers text = text
      <-> Forall (fun c => Char.isdigit c = false) text).
Proof. split; [apply bracket_length | apply bracket_id]. Qed.

(** X14.  The result of [convert_colour_to_color] never contains
    "colour", also when the replacements bring the letters of the word
    together; converting a second time changes nothing. *)
Theorem convert_colour_to_color_leaves_none (text : str) :
  ~ occurs "colour" (convert_colour_to_color text)
  /\ convert_colour_to_color (convert_colour_to_color text)
     = convert_colour_to_color text.
Proof.
  split; [apply convert_clean|]. apply convert_id, convert_clean.
Qed.

(** X15.  [convert_colour_to_color] returns the text unchanged exactly
    when "colour" does not occur in it. *)
Theorem convert_colour_to_color_fixed_points (text : str) :
  convert_colour_to_color text = text <-> ~ occurs "colour" text.
Proof.
  split; [|apply convert_id].
  intros Hid. rewrite <- Hid. apply convert_clean.
Qed.

(** ** Demonstrations through the helper *)

(** X16.  With a module [re] that compiles the pattern as Python does,
    [demonstrate_aliases] returns the maximal runs of digits of the text,
    left to right: together they are the digits of the text in order, and
    none is empty. *)
Theorem demonstrate_aliases_digit_runs `{ReModule} (text : str) :
  compiles_to "\d+" digits ->
  demonstrate_aliases text = Return (map Text (chunks Char.isdigit text))
  /\ concat (chunks Char.isdigit text) = List.filter Char.isdigit text
  /\ Forall (fun run => run <> [] /\ Forall (fun c => Char.isdigit c = true) run)
       (chunks Char.isdigit text).
Proof.
  intros Hre. unfold demonstrate_aliases.
  rewrite (find_all_matches_compiled _ _ _ Hre). unfold digits.
  rewrite findall_plus.
  split; [done|]. split; [apply chunks_concat | apply chunks_words].
Qed.

(** The same with the interface that knows the three patterns. *)
Lemma demonstrate_aliases_digit_runs_witness :
  @demonstrate_aliases known_patterns "Orders: 12345, 67890."
  = Return [ Text "12345"; Text "67890" ].
Proof.
  destruct known_patterns_compile as (_ & Hre & _).
  destruct (@demonstrate_aliases_digit_runs known_patterns
              "Orders: 12345, 67890." Hre) as [H _].
  rewrite H. vm_compute. reflexivity.
Defined.

(** X17.  With a module [re] that compiles the pattern as Python does,
    [demonstrate_disjunction] returns without raising, and every match is
    the word "cat" or the word "dog". *)
Theorem demonstrate_disjunction_two_words `{ReModule} (text : str) :
  compiles_to "cat|dog" cat_or_dog ->
  exists items,
    demonstrate_disjunction text = Return items
    /\ Forall (fun it => it = Text "cat" \/ it = Text "dog") items.
Proof.
  intros Hre. exists (Re.findall cat_or_dog text).
  split; [by apply find_all_matches_compiled|].
  apply findall_cat_or_dog_items.
Qed.

(** The same with the interface that knows the three patterns. *)
Lemma demonstrate_disjunction_two_words_witness :
  exists items,
    @demonstrate_disjunction known_patterns "I have a cat and a dog."
    = Return items
    /\ Forall (fun it => it = Text "cat" \/ it = Text "dog") items.
Proof.
  destruct known_patterns_compile as (Hre & _).
  exact (@demonstrate_disjunction_two_words known_patterns
           "I have a cat and a dog." Hre).
Defined.

(** X18.  With a module [re] that compiles the two patterns as Python
    does, [demonstrate_complex_disjunction] returns what
    [demonstrate_disjunction] returns: the pattern has one group, [findall]
    reports the group, and the optional plural letter is read but never
    reported. *)
Theorem demonstrate_complex_disjunction_drops_plural `{ReModule} (text : str) :
  compiles_to "cat|dog" cat_or_dog ->
  compiles_to "(cat|dog)s?" cats_or_dogs ->
  demonstrate_complex_disjunction text = demonstrate_disjunction text.
Proof.
  intros Hsimple Hplural.
  unfold demonstrate_complex_disjunction, demonstrate_disjunction.
  rewrite (find_all_matches_compiled _ _ _ Hsimple).
  rewrite (find_all_matches_compiled _ _ _ Hplural).
  by rewrite findall_cats_or_dogs.
Qed.

(** The same on the sample text of the script: the plural forms its
    comment announces are not returned. *)
Lemma demonstrate_complex_disjunction_drops_plural_witness :
  @demonstrate_complex_disjunction known_patterns
    "Cats and dogs are common pets. I have one cat and two dogs."
  = Return [ Text "dog"; Text "cat"; Text "dog" ].
Proof.
  destruct known_patterns_compile as (Hsimple & _ & Hplural).
  rewrite (@demonstrate_complex_disjunction_drops_plural known_patterns
             "Cats and dogs are common pets. I have one cat and two dogs."
             Hsimple Hplural).
  vm_compute. reflexivity.
Defined.

(** ** Aliases and wildcards *)

(** X19.  [convenient_aliases_examples] returns a dict with the three
    keys "digits", "words" and "spaces"; their values are the maximal runs
    of digits, of word characters and of whitespace in the text, left to
    right. *)
Theorem convenient_aliases_examples_runs (text : str) :
  convenient_aliases_examples text !! ("digits" : str)
  = Some (map Text (chunks Char.isdigit text))
  /\ convenient_aliases_examples text !! ("words" : str)
     = Some (map Text (chunks Char.isword text))
  /\ convenient_aliases_examples text !! ("spaces" : str)
     = Some (map Text (chunks Char.whitespace text))
  /\ dom (convenient_aliases_examples text)
     = ({[ "digits" : str; "words" : str; "spaces" : str ]} : gset str).
Proof.
  unfold convenient_aliases_examples, digit_pattern, word_pattern, space_pattern.
  rewrite !findall_plus.
  split; [by rewrite lookup_insert_eq|].
  split; [rewrite lookup_insert_ne by done; by rewrite lookup_insert_eq|].
  split; [rewrite !lookup_insert_ne by done; by rewrite lookup_insert_eq|].
  rewrite !dom_insert_L, dom_empty_L. set_solver.
Qed.

(** X20.  [advanced_regex_wildcards]: every match is the letter a
    followed by all the word characters that come after it in the text, up
    to a character that is not one or to the end.  The optional n of the
    pattern changes nothing: the pattern without it gives the same
    matches. *)
Theorem advanced_regex_wildcards_words_from_a (text : str) :
  advanced_regex_wildcards text = Re.findall a_word_plain text
  /\ Forall (fun it => exists before w behind,
               it = Text ("a"%char :: w)
               /\ text = before ++ "a"%char :: w ++ behind
               /\ Forall (fun c => Char.isword c = true) w
               /\ match behind with
                  | [] => True
                  | c :: _ => Char.isword c = false
                  end)
       (advanced_regex_wildcards text).
Proof.
  unfold advanced_regex_wildcards.
  split; [apply findall_a_word | apply findall_a_word_items].
Qed.
